(** * Moving-MNIST sequence loader: a model of [jaxhpm/jax_loader.py]

    The loader places digit sprites on a 64x64 canvas, moves them in straight
    lines, reflects them at the canvas border and renders one frame per tick.

    Conventions of the model.
    - A float array holds rationals ([Q]); arithmetic on them is exact, the
      rounding of the machine format is not represented.
    - An integer array holds [Z], without the bound of the machine width;
      a Python [int] is a [Z].
    - An array of shape (k, 2) is a list of pairs, a 2-D image a list of rows.
    - The primitives of the array library that the loader only calls (key
      splitting, random draws, cosine and sine) are the fields of [Jax];
      what their documentation promises is [JaxSpec]. *)

From Stdlib Require String.
From Stdlib Require Import ZArith QArith Qabs List Lia Lqa Bool.
Import ListNotations.
Local Open Scope Z_scope.

(** ** Elementwise array operations *)

Section Elementwise.
Context {A B C : Type}.

Fixpoint zip_with (f : A -> B -> C) (xs : list A) (ys : list B) : list C :=
  match xs, ys with
  | x :: xs', y :: ys' => f x y :: zip_with f xs' ys'
  | _, _ => []
  end.

End Elementwise.

(** Strict comparison of two rationals, as a boolean. *)
Definition Qltb (x y : Q) : bool := Qnum x * QDen y <? Qnum y * QDen x.

(** [a.astype(int)] on a float: the fractional part is dropped (towards 0). *)
Definition astype_int (q : Q) : Z := Z.quot (Qnum q) (Zpos (Qden q)).

(** A row of an array of shape (k, 2). *)
Abbreviation Vec2 := (Q * Q)%type (only parsing).
Abbreviation IVec2 := (Z * Z)%type (only parsing).

Definition vmap1 {A B} (f : A -> B) (v : A * A) : B * B := (f (fst v), f (snd v)).
Definition vmap2 {A B C} (f : A -> B -> C) (u : A * A) (v : B * B) : C * C :=
  (f (fst u) (fst v), f (snd u) (snd v)).

(** [a + b], [c * a], [a < c], [a > c], [m1 | m2] on arrays of shape (k, 2). *)
Definition arr_add (a b : list Vec2) : list Vec2 := zip_with (vmap2 Qplus) a b.
Definition arr_scale (c : Q) (a : list Vec2) : list Vec2 := map (vmap1 (Qmult c)) a.
Definition arr_lt (a : list Vec2) (c : Q) : list (bool * bool) :=
  map (vmap1 (fun x => Qltb x c)) a.
Definition arr_gt (a : list Vec2) (c : Q) : list (bool * bool) :=
  map (vmap1 (fun x => Qltb c x)) a.
Definition arr_or (m1 m2 : list (bool * bool)) : list (bool * bool) :=
  zip_with (vmap2 orb) m1 m2.

(** [jax.lax.select pred on_true on_false] on arrays of shape (k, 2): the
    choice is made per element. *)
Definition select (pred : list (bool * bool)) (on_true on_false : list Vec2)
  : list Vec2 :=
  zip_with (fun (p : bool * bool) (tf : Vec2 * Vec2) =>
              ((if fst p then fst (fst tf) else fst (snd tf)),
               (if snd p then snd (fst tf) else snd (snd tf))))
           pred (zip_with pair on_true on_false).

(** ** Images *)

Abbreviation Image := (list (list Z)) (only parsing).   (* uint8 or integer-valued canvas *)
Abbreviation Frame := (list (list Q)) (only parsing).   (* float canvas *)

Definition zeros (w h : Z) : Image := repeat (repeat 0 (Z.to_nat h)) (Z.to_nat w).

Definition dim0 {A} (a : list (list A)) : Z := Z.of_nat (length a).
Definition dim1 {A} (a : list (list A)) : Z := Z.of_nat (length (hd [] a)).

(** Pixel access; outside the array the value is 0. *)
Definition pixel (a : Image) (r c : Z) : Z :=
  if (r <? 0) || (c <? 0) then 0
  else nth (Z.to_nat c) (nth (Z.to_nat r) a []) 0.

Definition qpixel (a : Frame) (r c : Z) : Q :=
  if (r <? 0) || (c <? 0) then 0%Q
  else nth (Z.to_nat c) (nth (Z.to_nat r) a []) 0%Q.

(** [jax.lax.clamp lo x hi] *)
Definition clamp (lo x hi : Z) : Z := Z.min (Z.max lo x) hi.

(** Start index of a dynamic slice along one axis: a negative index counts
    from the end, and the result is clamped so that the slice fits. *)
Definition slice_start (operand_dim update_dim i : Z) : Z :=
  clamp 0 (if i <? 0 then i + operand_dim else i) (operand_dim - update_dim).

(** Overwrite [length upd] cells of [row] from position [s] on. *)
Definition update_row {A} (row upd : list A) (s : nat) : list A :=
  firstn s row ++ upd ++ skipn (s + length upd) row.

(** [jax.lax.dynamic_update_slice operand update (x, y)] on 2-D arrays. *)
Definition dynamic_update_slice (operand update : Image) (start : IVec2) : Image :=
  let sx := Z.to_nat (slice_start (dim0 operand) (dim0 update) (fst start)) in
  let sy := Z.to_nat (slice_start (dim1 operand) (dim1 update) (snd start)) in
  firstn sx operand
    ++ zip_with (fun row upd => update_row row upd sy)
                (firstn (length update) (skipn sx operand)) update
    ++ skipn (sx + length update) operand.

(** [a + b] on 2-D arrays. *)
Definition image_add (a b : Image) : Image := zip_with (zip_with Z.add) a b.

(** [images[index]]: a negative index counts from the end, and an index out
    of range is clamped to the nearest valid one. *)
Definition getitem (images : list Image) (index : Z) : Image :=
  let n := Z.of_nat (length images) in
  let i := if index <? 0 then index + n else index in
  nth (Z.to_nat (clamp 0 i (n - 1))) images [].

(** ** The loader object *)

Record JaxMNISTLoader : Type := {
  width : Z;
  height : Z;
  mnist_width : Z;
  mnist_height : Z;
  lims : Z * Z;
  images : list Image;
  num_images : Z;
  seq_len : Z;
  nums_per_image : Z
}.

Inductive PyError : Type :=
| AttributeError      (* [None.shape] *)
| TypeError           (* a negative dimension in a shape *)
| IndexError          (* index 0 on an axis of size 0 *)
| EinopsError.        (* an axis of the pattern does not match the array *)

Definition Result (A : Type) : Type := PyError + A.

Definition bind {A B} (r : Result A) (k : A -> Result B) : Result B :=
  match r with
  | inl e => inl e
  | inr a => k a
  end.

Notation "x <- r ;; k" := (bind r (fun x => k))
  (at level 61, r at next level, right associativity).

Fixpoint mapM {A B} (f : A -> Result B) (l : list A) : Result (list B) :=
  match l with
  | [] => inr []
  | a :: l' => b <- f a ;; bs <- mapM f l' ;; inr (b :: bs)
  end.

(** The object the constructor builds from an image array. *)
Definition loader_of (imgs : list Image) (seq_len num_mnist_per_mmnist : Z)
  : JaxMNISTLoader :=
  let width := 64 in
  let height := 64 in
  let mnist_width := 28 in
  let mnist_height := 28 in
  {| width := width; height := height;
     mnist_width := mnist_width; mnist_height := mnist_height;
     lims := (width - mnist_width, height - mnist_height);
     images := imgs;
     num_images := Z.of_nat (length imgs);
     seq_len := seq_len;
     nums_per_image := num_mnist_per_mmnist |}.

(** [JaxMNISTLoader.__init__]; [images] defaults to [None]. *)
Definition __init__ (images : option (list Image)) (seq_len num_mnist_per_mmnist : Z)
  : Result JaxMNISTLoader :=
  match images with
  | None => inl AttributeError
  | Some imgs => inr (loader_of imgs seq_len num_mnist_per_mmnist)
  end.

(** ** Rendering *)

Definition DigitState : Type := list Z * list Vec2 * list Vec2.

Definition _build_canvas (self : JaxMNISTLoader) (index : Z) (position : Vec2)
  : Image :=
  let '(x, y) := vmap1 astype_int position in
  let x := if x <? 0 then 0 else x in
  let x := if x >? fst (lims self) then fst (lims self) else x in
  let y := if y <? 0 then 0 else y in
  let y := if y >? snd (lims self) then snd (lims self) else y in
  let image := getitem (images self) index in
  let canvas := zeros (width self) (height self) in
  let fig := dynamic_update_slice canvas image (x, y) in
  fig.

(** The canvas accumulated by the loop of [_get_obsv], before saturation.
    It is a float array that only ever holds sums of [uint8] values, kept
    here as the integers they are. *)
Definition summed_canvas (self : JaxMNISTLoader) (state : DigitState) : Image :=
  let '(indexes, positions, _) := state in
  fold_left (fun canvas ip => image_add canvas (_build_canvas self (fst ip) (snd ip)))
            (combine indexes positions)
            (zeros (width self) (height self)).

Definition saturate (c : Z) : Z := if c >? 255 then 255 else c.
Definition normalize (c : Z) : Q := (inject_Z c / 255)%Q.

Definition _get_obsv (self : JaxMNISTLoader) (state : DigitState) : Frame :=
  let canvas := summed_canvas self state in
  let canvas := map (map saturate) canvas in
  let canvas := map (map normalize) canvas in
  canvas.

(** ** Library primitives *)

(** What the loader calls and does not define.  A key is the state of the
    splittable random generator.  Shapes are passed as the loader passes them. *)
Class Jax : Type := {
  Key : Type;
  (** [random.key(seed)] *)
  random_key : Z -> Key;
  (** [random.split(key)]: the two child keys *)
  random_split : Key -> Key * Key;
  (** [random.split(key, num=n)] *)
  random_split_num : Key -> Z -> list Key;
  (** [random.uniform(key, shape=(n,))], bounds left at their defaults 0 and 1 *)
  random_uniform : Key -> Z -> list Q;
  (** [random.uniform(key, shape=(n, 2), minval=lo, maxval=hi)] with one upper
      bound per column *)
  random_uniform2 : Key -> Z -> Q -> Vec2 -> list Vec2;
  (** [random.randint(key, (n,), minval, maxval)] *)
  random_randint : Key -> Z -> Z -> Z -> list Z;
  jnp_cos : Q -> Q;
  jnp_sin : Q -> Q
}.

(** The documented contract of the draws: the requested number of values,
    each in the half-open interval from [minval] (included) to [maxval]
    (excluded). *)
Class JaxSpec (J : Jax) : Prop := {
  split_num_length : forall k n,
    0 <= n -> length (random_split_num k n) = Z.to_nat n;
  uniform_length : forall k n,
    0 <= n -> length (random_uniform k n) = Z.to_nat n;
  uniform_range : forall k n u,
    In u (random_uniform k n) -> (0 <= u /\ u < 1)%Q;
  uniform2_length : forall k n lo hi,
    0 <= n -> length (random_uniform2 k n lo hi) = Z.to_nat n;
  uniform2_range : forall k n lo hi p,
    (lo < fst hi)%Q -> (lo < snd hi)%Q -> In p (random_uniform2 k n lo hi) ->
    (lo <= fst p /\ fst p < fst hi)%Q /\ (lo <= snd p /\ snd p < snd hi)%Q;
  randint_length : forall k n lo hi,
    0 <= n -> length (random_randint k n lo hi) = Z.to_nat n;
  randint_range : forall k n lo hi i,
    lo < hi -> In i (random_randint k n lo hi) -> lo <= i < hi
}.

(** [jnp.pi]: the double nearest to pi, exactly.  It lies just below pi. *)
Definition jnp_pi : Q := (884279719003555 # 281474976710656)%Q.

(** [jnp.pi] as a factor of a float32 array: the Python float is weakly
    typed, the product is computed in float32, and the factor that enters it
    is the float32 nearest to pi, 13176795 / 2^22 = 3.14159274101...  It
    lies just above pi. *)
Definition jnp_pi_f32 : Q := (13176795 # 4194304)%Q.

(** [dict]: the loader only ever builds the empty one. *)
Definition Dict : Type := list (String.string * Q).

Section Loader.
Context {J : Jax}.

Definition EnvState : Type := DigitState * Key.

(** ** One tick *)

Definition step {Action : Type} (self : JaxMNISTLoader) (env_state : EnvState)
           (action : Action) : EnvState * Frame * Q * bool * Dict :=
  let '(state, key) := env_state in
  let '(indexes, positions, velocs) := state in
  let next_pos := arr_add positions velocs in
  let velocs :=
    select (arr_or (arr_lt next_pos (-2))
                   (arr_gt next_pos (inject_Z (fst (lims self) + 2))))
           (arr_scale (-1) velocs) velocs in
  let positions := arr_add positions velocs in
  let next_state := (indexes, positions, velocs) in
  let next_env_state := (next_state, key) in
  let reward := 1%Q in
  let done := false in
  (next_env_state, _get_obsv self next_state, reward, done, []).

(** ** A fresh episode *)

(** The local variables of [_reset], in the order they are assigned.
    [velocs] is built by [jnp.array] from a Python list with one pair per
    digit.  For 0 digits that list is empty and the array has shape (0,) and
    not (0, 2): [_reset] still returns, but [step] cannot add it to the
    positions and raises.  A list of pairs does not tell these two empty
    arrays apart, so what is said of stepping a fresh state is said for at
    least one digit. *)
Record ResetLocals : Type := {
  subkey1 : Key; direcs : list Q;
  subkey2 : Key; indexes_ : list Z;
  subkey3 : Key; speeds : list Z;
  velocs_ : list Vec2;
  subkey4 : Key; positions_ : list Vec2;
  new_key : Key
}.

Definition reset_locals (self : JaxMNISTLoader) (key : Key) : ResetLocals :=
  let ks := random_split key in
  let new_key := fst ks in let subkey1 := snd ks in
  let direcs :=
    map (fun u => jnp_pi_f32 * (u * 2 - 1))%Q
        (random_uniform subkey1 (nums_per_image self)) in
  let ks := random_split new_key in
  let new_key := fst ks in let subkey2 := snd ks in
  let indexes := random_randint subkey2 (nums_per_image self) 0 (num_images self) in
  let ks := random_split new_key in
  let new_key := fst ks in let subkey3 := snd ks in
  let speeds :=
    map (fun s => s + 2) (random_randint subkey3 (nums_per_image self) 0 5) in
  let velocs :=
    zip_with (fun direc speed =>
                (inject_Z speed * jnp_cos direc, inject_Z speed * jnp_sin direc)%Q)
             direcs speeds in
  let ks := random_split new_key in
  let new_key := fst ks in let subkey4 := snd ks in
  let positions :=
    random_uniform2 subkey4 (nums_per_image self) 0
                    (inject_Z (fst (lims self)), inject_Z (snd (lims self))) in
  {| subkey1 := subkey1; direcs := direcs;
     subkey2 := subkey2; indexes_ := indexes;
     subkey3 := subkey3; speeds := speeds;
     velocs_ := velocs;
     subkey4 := subkey4; positions_ := positions;
     new_key := new_key |}.

Definition _reset (self : JaxMNISTLoader) (key : Key) : EnvState :=
  let l := reset_locals self key in
  let new_state := (indexes_ l, positions_ l, velocs_ l) in
  (new_state, new_key l).

(** [jax.lax.cond done self._reset (lambda key: env_state) key] *)
Definition _maybe_reset (self : JaxMNISTLoader) (env_state : EnvState) (done : bool)
  : EnvState :=
  let key := snd env_state in
  if done then _reset self key else env_state.

Definition reset (self : JaxMNISTLoader) (key : Key) : EnvState * Frame :=
  let env_state := _reset self key in
  let initial_state := fst env_state in
  (env_state, _get_obsv self initial_state).

(** ** A whole sequence *)

(** [jax.lax.scan f init xs]: thread the carry through [f], one call per
    element of [xs], and stack the outputs. *)
Fixpoint scan {Carry X Y : Type} (f : Carry -> X -> Carry * Y) (init : Carry)
         (xs : list X) : Carry * list Y :=
  match xs with
  | [] => (init, [])
  | x :: xs' =>
      let '(carry, y) := f init x in
      let '(final, ys) := scan f carry xs' in
      (final, y :: ys)
  end.

Definition scan_func {X : Type} (self : JaxMNISTLoader) (carry : EnvState) (x : X)
  : EnvState * Frame :=
  let '(new_carry, y, _, _, _) := step self carry x in
  (new_carry, y).

(** With [xs = None] and [length = n] the scanned function is called [n]
    times, each time with [None] ([tt] here). *)
Definition build_seq (self : JaxMNISTLoader) (key : Key) : list Frame :=
  let '(init, _) := reset self key in
  let '(_, ys) := scan (scan_func self) init (repeat tt (Z.to_nat (seq_len self))) in
  ys.

(** ** The batch stream *)

(** The image arrays of the two splits of the dataset, each of shape
    (b, w, h, 1). *)
Record Mnist : Type := {
  train_image : list (list (list (list Z)));
  test_image : list (list (list (list Z)))
}.

(** [a[:n]] *)
Definition slice_to {A} (a : list A) (n : Z) : list A :=
  if n <? 0 then firstn (Z.to_nat (Z.of_nat (length a) + n)) a
  else firstn (Z.to_nat n) a.

(** [einops.rearrange(a, "b w h 1 -> b w h")] *)
Definition rearrange_squeeze (a : list (list (list (list Z)))) : Result (list Image) :=
  mapM (mapM (mapM (fun px => match px with
                              | [v] => inr v
                              | _ => inl EinopsError
                              end))) a.

(** [einops.rearrange(a, "b t w h -> b t w h 1")] *)
Definition rearrange_expand (a : list (list Frame)) : list (list (list (list (list Q)))) :=
  map (map (map (map (fun v => [v])))) a.

(** [jnp.zeros((d0, d1, d2))] and [jnp.zeros((d0, d1))] with fill value [z] *)
Definition jnp_zeros3 {A} (z : A) (d0 d1 d2 : Z) : Result (list (list (list A))) :=
  if (d0 <? 0) || (d1 <? 0) || (d2 <? 0) then inl TypeError
  else inr (repeat (repeat (repeat z (Z.to_nat d2)) (Z.to_nat d1)) (Z.to_nat d0)).

Definition jnp_zeros2 {A} (z : A) (d0 d1 : Z) : Result (list (list A)) :=
  if (d0 <? 0) || (d1 <? 0) then inl TypeError
  else inr (repeat (repeat z (Z.to_nat d1)) (Z.to_nat d0)).

(** [a.at[0].set(v)]: row 0 is filled with [v]; on an array without rows
    the index 0 is out of bounds and the call raises. *)
Definition at0_set {A} (a : list (list A)) (v : A) : Result (list (list A)) :=
  match a with
  | [] => inl IndexError
  | row :: rows => inr (map (fun _ => v) row :: rows)
  end.

Record Batch : Type := {
  image : list (list (list (list (list Q))));
  action : list (list (list Q));
  is_first : list (list bool)
}.

(** The generator between two pulls: what was computed before the loop,
    and the key the loop carries. *)
Record MMNIST : Type := {
  jaxLoader : JaxMNISTLoader;
  batch_size : Z;
  action_ : list (list (list Q));
  is_first_ : list (list bool);
  next_key : Key
}.

(** [jaxMMNIST(...)] up to the loop.  The placement of the images on a
    device is not represented. *)
Definition jaxMMNIST (mnist : Mnist) (train : bool)
           (batch_size num_source_mnist_images num_mnist_per_image seq_len : Z)
  : Result MMNIST :=
  let mnist_images := if train then train_image mnist else test_image mnist in
  let np_images := slice_to mnist_images num_source_mnist_images in
  np_images <- rearrange_squeeze np_images ;;
  jaxLoader <- __init__ (Some np_images) seq_len num_mnist_per_image ;;
  let seed := 38 in
  let next_key := random_key seed in
  action <- jnp_zeros3 0%Q batch_size seq_len 2 ;;
  is_first <- jnp_zeros2 false batch_size seq_len ;;
  is_first <- at0_set is_first true ;;
  inr {| jaxLoader := jaxLoader; batch_size := batch_size;
         action_ := action; is_first_ := is_first; next_key := next_key |}.

(** One turn of the loop: the batch it yields and the generator after it. *)
Definition next (g : MMNIST) : Batch * MMNIST :=
  let ks := random_split (next_key g) in
  let next_key := fst ks in let current_key := snd ks in
  let batch_key := random_split_num current_key (batch_size g) in
  let batch_ys := map (build_seq (jaxLoader g)) batch_key in
  let reshaped_ys := rearrange_expand batch_ys in
  ({| image := reshaped_ys; action := action_ g; is_first := is_first_ g |},
   {| jaxLoader := jaxLoader g; batch_size := batch_size g;
      action_ := action_ g; is_first_ := is_first_ g; next_key := next_key |}).

(** The batch of the [n]-th pull, counting from 0. *)
Fixpoint nth_batch (g : MMNIST) (n : nat) : Batch :=
  match n with
  | O => fst (next g)
  | S n' => nth_batch (snd (next g)) n'
  end.

End Loader.

(** ** Reading the results *)

Section Accessors.
Context {J : Jax}.

Definition st_indexes (s : DigitState) : list Z := fst (fst s).
Definition st_positions (s : DigitState) : list Vec2 := snd (fst s).
Definition st_velocs (s : DigitState) : list Vec2 := snd s.

Definition StepResult : Type := EnvState * Frame * Q * bool * Dict.

Definition res_env (r : StepResult) : EnvState := fst (fst (fst (fst r))).
Definition res_obsv (r : StepResult) : Frame := snd (fst (fst (fst r))).
Definition res_reward (r : StepResult) : Q := snd (fst (fst r)).
Definition res_done (r : StepResult) : bool := snd (fst r).
Definition res_info (r : StepResult) : Dict := snd r.

(** The environment after [n] ticks, every tick with the same action. *)
Fixpoint steps {Action : Type} (self : JaxMNISTLoader) (n : nat) (env : EnvState)
         (a : Action) : EnvState :=
  match n with
  | O => env
  | S n' => steps self n' (res_env (step self env a)) a
  end.

(** A state as [_reset] makes it: one position and one velocity per digit. *)
Definition state_ok (s : DigitState) : Prop :=
  length (st_positions s) = length (st_velocs s).

(** The velocities after the reflection test of [step]. *)
Definition bounced (self : JaxMNISTLoader) (positions velocs : list Vec2) : list Vec2 :=
  let next_pos := arr_add positions velocs in
  select (arr_or (arr_lt next_pos (-2))
                 (arr_gt next_pos (inject_Z (fst (lims self) + 2))))
         (arr_scale (-1) velocs) velocs.

(** The velocity component [v] after the test on the predicted coordinate [c]. *)
Definition flip (self : JaxMNISTLoader) (c v : Q) : Q :=
  if Qltb c (-2) || Qltb (inject_Z (fst (lims self) + 2)) c then (- v)%Q else v.

(** What [step] does to one velocity component [v], given the predicted
    coordinate [c] on that axis and the room [lim] the sprite has on it:
    [v'] is [v] negated when [c] is below -2 or above [lim + 2], and [v]
    itself otherwise. *)
Definition reflected (lim c v v' : Q) : Prop :=
  ((c < -2 \/ lim + 2 < c)%Q -> v' = (- v)%Q) /\
  (~ (c < -2 \/ lim + 2 < c)%Q -> v' = v).

(** The squared speed of each digit. *)
Definition speed2 (v : Vec2) : Q := (fst v * fst v + snd v * snd v)%Q.
End Accessors.

(** ** Sprites and where they land *)

Definition has_shape {A} (w h : nat) (a : list (list A)) : Prop :=
  length a = w /\ Forall (fun row => length row = h) a.

(** A sprite of the store: 28 rows of 28 intensities, each a [uint8]. *)
Definition sprite_ok (im : Image) : Prop :=
  has_shape 28 28 im /\ Forall (Forall (fun v => 0 <= v <= 255)) im.

Definition store_ok (imgs : list Image) : Prop :=
  imgs <> [] /\ Forall sprite_ok imgs.

(** The corner at which [_build_canvas] writes the sprite. *)
Definition placement (self : JaxMNISTLoader) (position : Vec2) : IVec2 :=
  let '(x, y) := vmap1 astype_int position in
  let x := if x <? 0 then 0 else x in
  let x := if x >? fst (lims self) then fst (lims self) else x in
  let y := if y <? 0 then 0 else y in
  let y := if y >? snd (lims self) then snd (lims self) else y in
  (x, y).

(** Whether pixel [(r, c)] is covered by a sprite whose corner is [start]. *)
Definition in_box (self : JaxMNISTLoader) (start : IVec2) (r c : Z) : bool :=
  (fst start <=? r) && (r <? fst start + mnist_width self)
  && (snd start <=? c) && (c <? snd start + mnist_height self).

(** The sum over the digits of what each one's canvas holds at [(r, c)]. *)
Definition digit_sum (self : JaxMNISTLoader) (state : DigitState) (r c : Z) : Z :=
  fold_right Z.add 0
    (map (fun ip => pixel (_build_canvas self (fst ip) (snd ip)) r c)
         (combine (st_indexes state) (st_positions state))).

(** Shape (b, t, 64, 64, 1) of the image array of a batch. *)
Definition image_shape (b t : nat) (a : list (list (list (list (list Q))))) : Prop :=
  length a = b /\
  Forall (fun sequence =>
            length sequence = t /\
            Forall (fun frame =>
                      has_shape 64 64 frame /\
                      Forall (Forall (fun px => length px = 1%nat)) frame)
                   sequence) a.

(** ** Where the digits move *)

(** The band of positions a digit is allowed before it is turned around:
    from -2 to (canvas size - sprite size) + 2 on each axis. *)
Definition in_band (p : Vec2) : Prop :=
  ((-2 <= fst p /\ fst p <= 38) /\ (-2 <= snd p /\ snd p <= 38))%Q.

(** A velocity of at most half the width of the band on each axis. *)
Definition slow (v : Vec2) : Prop :=
  ((-20 <= fst v /\ fst v <= 20) /\ (-20 <= snd v /\ snd v <= 20))%Q.

(** How the corner coordinate [c] of a drawn sprite follows the position
    coordinate [q] of its digit: 0 for a position below 1, 36 for a
    position from 36 on, and in between the pixel the position falls in. *)
Definition tracks (q : Q) (c : Z) : Prop :=
  ((q < 1)%Q -> c = 0) /\
  ((36 <= q)%Q -> c = 36) /\
  ((0 <= q)%Q -> (q <= 36)%Q -> (inject_Z c <= q)%Q /\ (q < inject_Z (c + 1))%Q).

(** The key the generator holds after [m] pulls, started with key [k]. *)
Fixpoint key_chain {J : Jax} (k : Key) (m : nat) : Key :=
  match m with
  | O => k
  | S m' => key_chain (fst (random_split k)) m'
  end.

(** [v] as a pixel with a channel axis of length 1. *)
Definition with_channel (imgs : list Image) : list (list (list (list Z))) :=
  map (map (map (fun v => [v]))) imgs.

(** ** A deterministic instance of the primitives

    Keys are integers, the draws cycle through eighths of the requested
    interval, and cosine and sine are short Taylor polynomials.  It serves
    to run the loader on concrete inputs. *)

Definition cycle_uniform (k n : Z) : list Q :=
  map (fun i => ((k + Z.of_nat i) mod 8) # 8) (seq 0 (Z.to_nat n)).

Definition cycle_uniform2 (k n : Z) (lo : Q) (hi : Vec2) : list Vec2 :=
  map (fun u => (lo + (fst hi - lo) * u, lo + (snd hi - lo) * u)%Q) (cycle_uniform k n).

Definition cycle_randint (k n lo hi : Z) : list Z :=
  map (fun i => lo + (k + Z.of_nat i) mod (hi - lo)) (seq 0 (Z.to_nat n)).

#[export] Instance CycleJax : Jax := {|
  Key := Z;
  random_key := fun seed => seed;
  random_split := fun k => (2 * k + 1, 2 * k + 2);
  random_split_num := fun k n => map (fun i => 3 * k + Z.of_nat i) (seq 0 (Z.to_nat n));
  random_uniform := cycle_uniform;
  random_uniform2 := cycle_uniform2;
  random_randint := cycle_randint;
  jnp_cos := fun x => (1 - x * x / 2)%Q;
  jnp_sin := fun x => (x - x * x * x / 6)%Q
|}.

(** The same draws with cosine and sine exactly on the unit circle: the
    point at half-angle tangent [x / 2], (1 - t^2) / (1 + t^2) and
    2 t / (1 + t^2). *)
Definition circle_cos (x : Q) : Q :=
  ((1 - (x / 2) * (x / 2)) / (1 + (x / 2) * (x / 2)))%Q.
Definition circle_sin (x : Q) : Q :=
  (2 * (x / 2) / (1 + (x / 2) * (x / 2)))%Q.

Definition CircleJax : Jax := {|
  Key := Z;
  random_key := fun seed => seed;
  random_split := fun k => (2 * k + 1, 2 * k + 2);
  random_split_num := fun k n => map (fun i => 3 * k + Z.of_nat i) (seq 0 (Z.to_nat n));
  random_uniform := cycle_uniform;
  random_uniform2 := cycle_uniform2;
  random_randint := cycle_randint;
  jnp_cos := circle_cos;
  jnp_sin := circle_sin
|}.

(** A sprite store with two 28x28 sprites, one uniformly 200 and one
    uniformly 100. *)
Definition flat_sprite (v : Z) : Image := repeat (repeat v 28%nat) 28%nat.
Definition two_sprites : list Image := [flat_sprite 200; flat_sprite 100].

(** A dataset whose training split holds these two sprites, each pixel
    in a channel axis of length 1, and whose test split is empty. *)
Definition two_sprite_mnist : Mnist :=
  {| train_image := map (map (map (fun v => [v]))) two_sprites;
     test_image := [] |}.

(** The generator for batches of 2 sequences of 3 frames with 1 digit. *)
Definition small_generator : MMNIST :=
  {| jaxLoader := loader_of two_sprites 3 1;
     batch_size := 2;
     action_ := repeat (repeat (repeat 0%Q 2) 3) 2;
     is_first_ := [repeat true 3; repeat false 3];
     next_key := 38 |}.

(** * Properties *)

(** ** Lists *)

Section ZipFacts.
Context {A B C : Type}.

Lemma zip_with_length (f : A -> B -> C) xs ys :
  length (zip_with f xs ys) = Nat.min (length xs) (length ys).
Proof.
  revert ys; induction xs as [|x xs IH]; intros [|y ys]; simpl; auto.
Qed.

Lemma nth_error_zip_with (f : A -> B -> C) xs ys i :
  nth_error (zip_with f xs ys) i =
  match nth_error xs i, nth_error ys i with
  | Some x, Some y => Some (f x y)
  | _, _ => None
  end.
Proof.
  revert ys i; induction xs as [|x xs IH]; intros [|y ys] [|i]; simpl; auto;
    destruct (nth_error xs i); reflexivity.
Qed.

Lemma nth_zip_with (f : A -> B -> C) xs ys i da db dc :
  (i < length xs)%nat -> (i < length ys)%nat ->
  nth i (zip_with f xs ys) dc = f (nth i xs da) (nth i ys db).
Proof.
  revert ys i; induction xs as [|x xs IH]; intros [|y ys] [|i]; simpl;
    try lia; auto.
  intros; apply IH; lia.
Qed.
End ZipFacts.

(** ** The tick *)

Section StepFacts.
Context {J : Jax}.

Lemma step_unfold {Action} self indexes positions velocs (key : Key) (a : Action) :
  step self ((indexes, positions, velocs), key) a =
  let velocs' := bounced self positions velocs in
  let next_state := (indexes, arr_add positions velocs', velocs') in
  ((next_state, key), _get_obsv self next_state, 1%Q, false, []).
Proof. reflexivity. Qed.

Lemma Qmult_m1 (v : Q) : ((-1) * v)%Q = (- v)%Q.
Proof. destruct v as [[|p|p] d]; reflexivity. Qed.

Lemma Qltb_lt x y : Qltb x y = true <-> (x < y)%Q.
Proof. unfold Qltb, Qlt. apply Z.ltb_lt. Qed.

Lemma nth_error_bounced self positions velocs i p v :
  nth_error positions i = Some p -> nth_error velocs i = Some v ->
  nth_error (bounced self positions velocs) i =
  Some (flip self (fst p + fst v) (fst v), flip self (snd p + snd v) (snd v)).
Proof.
  intros Hp Hv. unfold bounced, select, arr_or, arr_lt, arr_gt, arr_scale, arr_add.
  repeat (rewrite nth_error_zip_with || rewrite nth_error_map).
  rewrite Hp, Hv.
  cbn [option_map vmap1 vmap2 fst snd]. unfold flip.
  rewrite !Qmult_m1. reflexivity.
Qed.

Lemma bounced_length self positions velocs :
  length positions = length velocs ->
  length (bounced self positions velocs) = length velocs.
Proof.
  intros H. unfold bounced, select, arr_or, arr_lt, arr_gt, arr_scale, arr_add.
  repeat (rewrite zip_with_length || rewrite length_map). lia.
Qed.

Lemma flip_cases self c v :
  ((c < -2 \/ inject_Z (fst (lims self) + 2) < c)%Q -> flip self c v = (- v)%Q) /\
  (~ (c < -2 \/ inject_Z (fst (lims self) + 2) < c)%Q -> flip self c v = v).
Proof.
  unfold flip. split; intros H.
  - destruct H as [H|H]; apply Qltb_lt in H; rewrite H;
      [reflexivity | rewrite orb_true_r; reflexivity].
  - destruct (Qltb c (-2)) eqn:E1.
    { exfalso; apply H; left; now apply Qltb_lt. }
    destruct (Qltb _ c) eqn:E2.
    { exfalso; apply H; right; now apply Qltb_lt. }
    reflexivity.
Qed.

Lemma flip_abs self c v : Qabs (flip self c v) = Qabs v.
Proof.
  unfold flip. destruct (_ || _); [|reflexivity].
  destruct v as [[|p|p] d]; reflexivity.
Qed.

Lemma flip_sq self c v : (flip self c v * flip self c v)%Q = (v * v)%Q.
Proof.
  unfold flip. destruct (_ || _); [|reflexivity].
  destruct v as [[|p|p] d]; reflexivity.
Qed.

Lemma flip_reflected self c v :
  reflected (inject_Z (fst (lims self))) c v (flip self c v).
Proof.
  assert (E : forall x, (inject_Z (fst (lims self)) + 2 < x)%Q <->
                        (inject_Z (fst (lims self) + 2) < x)%Q).
  { intros x. rewrite inject_Z_plus. reflexivity. }
  destruct (flip_cases self c v) as [H1 H2]. split; intros H.
  - apply H1. rewrite <- E. exact H.
  - apply H2. rewrite <- E. exact H.
Qed.

Lemma bounced_map {B} self positions velocs (f : Vec2 -> B) :
  length positions = length velocs ->
  (forall c1 c2 v, f (flip self c1 (fst v), flip self c2 (snd v)) = f v) ->
  map f (bounced self positions velocs) = map f velocs.
Proof.
  intros Hlen Hf. apply nth_error_ext. intros i.
  rewrite !nth_error_map.
  destruct (nth_error velocs i) as [v|] eqn:Hv.
  - destruct (nth_error positions i) as [p|] eqn:Hp.
    + rewrite (nth_error_bounced self _ _ _ _ _ Hp Hv). simpl. now rewrite Hf.
    + apply nth_error_None in Hp. assert (nth_error velocs i <> None) as Hn by congruence.
      apply nth_error_Some in Hn. lia.
  - apply nth_error_None in Hv.
    assert (nth_error (bounced self positions velocs) i = None) as ->; [|reflexivity].
    apply nth_error_None. rewrite bounced_length; assumption.
Qed.

Lemma step_state_ok {Action} self env (a : Action) :
  state_ok (fst env) -> state_ok (fst (res_env (step self env a))).
Proof.
  destruct env as [[[indexes positions] velocs] key].
  rewrite step_unfold. unfold state_ok. cbn [res_env st_velocs st_positions fst snd].
  intros H. unfold arr_add. rewrite zip_with_length, bounced_length; auto. lia.
Qed.

Lemma steps_S {Action} self n env (a : Action) :
  steps self (S n) env a = res_env (step self (steps self n env a) a).
Proof.
  revert env; induction n as [|n IH]; intros env; [reflexivity|].
  change (steps self (S (S n)) env a)
    with (steps self (S n) (res_env (step self env a)) a).
  rewrite IH. reflexivity.
Qed.

Lemma steps_state_ok {Action} self n env (a : Action) :
  state_ok (fst env) -> state_ok (fst (steps self n env a)).
Proof.
  intros H; induction n as [|n IH]; [exact H|].
  rewrite steps_S. apply step_state_ok, IH.
Qed.

(** C1. For a loader built by the constructor and any action, [step]
    predicts [positions + velocs] without clamping; for digit [i] and each
    axis separately the velocity component is negated when the predicted
    coordinate is below -2 or above (canvas size - sprite size) + 2 and
    kept otherwise; the new position is the old position plus the velocity
    after that test, so a reflection moves the digit in the same tick. *)
Theorem step_reflects_per_axis {Action} imgs sl n indexes positions velocs
        (key : Key) (a : Action) i p v :
  nth_error positions i = Some p ->
  nth_error velocs i = Some v ->
  let self := loader_of imgs sl n in
  let next := fst (res_env (step self ((indexes, positions, velocs), key) a)) in
  exists v',
    nth_error (st_velocs next) i = Some v' /\
    reflected (inject_Z (width self - mnist_width self))
              (fst p + fst v) (fst v) (fst v') /\
    reflected (inject_Z (height self - mnist_height self))
              (snd p + snd v) (snd v) (snd v') /\
    nth_error (st_positions next) i = Some (fst p + fst v', snd p + snd v')%Q.
Proof.
  intros Hp Hv self next.
  pose proof (nth_error_bounced self _ _ _ _ _ Hp Hv) as Hb.
  exists (flip self (fst p + fst v) (fst v), flip self (snd p + snd v) (snd v)).
  subst next. rewrite step_unfold. cbn [res_env st_velocs st_positions fst snd].
  split; [exact Hb|]. split; [apply (flip_reflected self)|].
  split; [apply (flip_reflected self)|].
  unfold arr_add. rewrite nth_error_zip_with, Hp, Hb. reflexivity.
Qed.

(** C8. The action has no influence on [step]: two calls on the same
    state with any two actions return the same state, frame, reward, done
    flag and info; the reward is 1, done is false and info is empty. *)
Theorem step_ignores_action {A1 A2} self (env : EnvState) (a1 : A1) (a2 : A2) :
  step self env a1 = step self env a2 /\
  res_reward (step self env a1) = 1%Q /\
  res_done (step self env a1) = false /\
  res_info (step self env a1) = [].
Proof.
  destruct env as [[[indexes positions] velocs] key].
  rewrite !step_unfold. repeat split.
Qed.

(** C9. [step] returns the digit indices and the key it was given:
    only positions and velocities change, and no random primitive is
    applied to the key. *)
Theorem step_keeps_indexes_and_key {Action} self (env : EnvState) (a : Action) :
  st_indexes (fst (res_env (step self env a))) = st_indexes (fst env) /\
  snd (res_env (step self env a)) = snd env.
Proof.
  destruct env as [[[indexes positions] velocs] key].
  rewrite step_unfold. split; reflexivity.
Qed.

(** C10. On a state with one velocity per position, every velocity
    component keeps its absolute value through [step], and therefore
    through any number of steps; so does the squared speed of every
    digit. *)
Theorem step_preserves_speed {Action} self (env : EnvState) (a : Action) k :
  state_ok (fst env) ->
  map (vmap1 Qabs) (st_velocs (fst (res_env (step self env a))))
    = map (vmap1 Qabs) (st_velocs (fst env)) /\
  map (vmap1 Qabs) (st_velocs (fst (steps self k env a)))
    = map (vmap1 Qabs) (st_velocs (fst env)) /\
  map speed2 (st_velocs (fst (steps self k env a)))
    = map speed2 (st_velocs (fst env)).
Proof.
  assert (one : forall B (f : Vec2 -> B) e, state_ok (fst e) ->
            (forall c1 c2 v, f (flip self c1 (fst v), flip self c2 (snd v)) = f v) ->
            map f (st_velocs (fst (res_env (step self e a))))
            = map f (st_velocs (fst e))).
  { intros B f [[[indexes positions] velocs] key] Hok Hf.
    rewrite step_unfold. cbn [res_env st_velocs fst snd].
    apply bounced_map; assumption. }
  assert (many : forall B (f : Vec2 -> B),
            (forall c1 c2 v, f (flip self c1 (fst v), flip self c2 (snd v)) = f v) ->
            forall m e, state_ok (fst e) ->
            map f (st_velocs (fst (steps self m e a))) = map f (st_velocs (fst e))).
  { intros B f Hf m; induction m as [|m IH]; intros e Hok; [reflexivity|].
    rewrite steps_S, one; auto using steps_state_ok. }
  assert (Habs : forall c1 c2 v,
            vmap1 Qabs (flip self c1 (fst v), flip self c2 (snd v)) = vmap1 Qabs v).
  { intros c1 c2 v. unfold vmap1; cbn [fst snd]. now rewrite !flip_abs. }
  assert (Hsq : forall c1 c2 v,
            speed2 (flip self c1 (fst v), flip self c2 (snd v)) = speed2 v).
  { intros c1 c2 v. unfold speed2; cbn [fst snd]. now rewrite !flip_sq. }
  intros Hok. split; [|split].
  - apply one; assumption.
  - apply many; assumption.
  - apply many; assumption.
Qed.
End StepFacts.

(** ** Images *)

Section ImageFacts.

Lemma nth_update_row {A} (row upd : list A) s c d :
  (s + length upd <= length row)%nat ->
  nth c (update_row row upd s) d =
  if (s <=? c)%nat && (c <? s + length upd)%nat then nth (c - s) upd d
  else nth c row d.
Proof.
  intros Hfit. unfold update_row.
  assert (Hs : length (firstn s row) = s) by (rewrite length_firstn; lia).
  destruct (Nat.leb_spec s c) as [Hsc|Hsc]; simpl.
  - rewrite app_nth2 by lia. rewrite Hs.
    destruct (Nat.ltb_spec c (s + length upd)) as [Hc|Hc].
    + apply app_nth1. lia.
    + rewrite app_nth2 by lia. rewrite nth_skipn. f_equal. lia.
  - rewrite app_nth1 by lia. rewrite nth_firstn.
    destruct (Nat.ltb_spec c s); [reflexivity|lia].
Qed.

Lemma length_update_row {A} (row upd : list A) s :
  (s + length upd <= length row)%nat ->
  length (update_row row upd s) = length row.
Proof.
  intros Hfit. unfold update_row.
  rewrite !length_app, length_firstn, length_skipn. lia.
Qed.

(** The rows of a 2-D slice update, for a slice that fits. *)
Lemma nth_update_rows {A} (operand update : list (list A)) sx sy r :
  (sx + length update <= length operand)%nat ->
  nth r (firstn sx operand
           ++ zip_with (fun row upd => update_row row upd sy)
                       (firstn (length update) (skipn sx operand)) update
           ++ skipn (sx + length update) operand) [] =
  if (sx <=? r)%nat && (r <? sx + length update)%nat
  then update_row (nth r operand []) (nth (r - sx) update []) sy
  else nth r operand [].
Proof.
  intros Hfit.
  assert (Hs : length (firstn sx operand) = sx) by (rewrite length_firstn; lia).
  assert (Hm : length (firstn (length update) (skipn sx operand)) = length update).
  { rewrite length_firstn, length_skipn. lia. }
  destruct (Nat.leb_spec sx r) as [Hr|Hr]; simpl.
  - rewrite app_nth2 by lia. rewrite Hs.
    destruct (Nat.ltb_spec r (sx + length update)) as [Hc|Hc].
    + rewrite app_nth1 by (rewrite zip_with_length; lia).
      rewrite (nth_zip_with _ _ _ _ [] []) by lia.
      rewrite nth_firstn, nth_skipn.
      destruct (Nat.ltb_spec (r - sx) (length update)); [|lia].
      do 2 f_equal. lia.
    + rewrite app_nth2 by (rewrite zip_with_length; lia).
      rewrite zip_with_length, Hm, Nat.min_id, nth_skipn. f_equal. lia.
  - rewrite app_nth1 by lia. rewrite nth_firstn.
    destruct (Nat.ltb_spec r sx); [reflexivity|lia].
Qed.

Lemma length_update_rows {A} (operand update : list (list A)) sx sy :
  (sx + length update <= length operand)%nat ->
  length (firstn sx operand
            ++ zip_with (fun row upd => update_row row upd sy)
                        (firstn (length update) (skipn sx operand)) update
            ++ skipn (sx + length update) operand) = length operand.
Proof.
  intros Hfit.
  rewrite !length_app, zip_with_length, !length_firstn, !length_skipn. lia.
Qed.

Lemma nth_zeros w h r :
  nth r (zeros w h) [] = if (r <? Z.to_nat w)%nat then repeat 0 (Z.to_nat h) else [].
Proof.
  unfold zeros. destruct (Nat.ltb_spec r (Z.to_nat w)) as [H|H].
  - rewrite (nth_indep _ [] (repeat 0 (Z.to_nat h))) by (rewrite repeat_length; lia).
    apply nth_repeat.
  - apply nth_overflow. rewrite repeat_length. lia.
Qed.

Lemma nth_repeat_0 n c : nth c (repeat 0 n) 0 = 0.
Proof. apply nth_repeat. Qed.

Lemma pixel_zeros w h r c : pixel (zeros w h) r c = 0.
Proof.
  unfold pixel. destruct (_ || _); [reflexivity|].
  rewrite nth_zeros. destruct (_ <? _)%nat; [apply nth_repeat_0|].
  now destruct (Z.to_nat c).
Qed.

Lemma zeros_shape w h : has_shape (Z.to_nat w) (Z.to_nat h) (zeros w h).
Proof.
  split; [apply repeat_length|].
  apply Forall_forall. intros row Hin. apply repeat_spec in Hin. subst.
  apply repeat_length.
Qed.

Lemma has_shape_nth {A} w h (a : list (list A)) r :
  has_shape w h a -> (r < w)%nat -> length (nth r a []) = h.
Proof.
  intros [Hw Hh] Hr. rewrite Forall_forall in Hh. apply Hh, nth_In. lia.
Qed.

Lemma has_shape_intro {A} w h (a : list (list A)) :
  length a = w -> (forall r, (r < w)%nat -> length (nth r a []) = h) ->
  has_shape w h a.
Proof.
  intros Hw Hr. split; [exact Hw|]. apply Forall_nth. intros i d Hi.
  rewrite (nth_indep _ d []) by exact Hi. apply Hr. lia.
Qed.

Lemma build_canvas_eq self index position :
  _build_canvas self index position =
  dynamic_update_slice (zeros (width self) (height self))
                       (getitem (images self) index) (placement self position).
Proof.
  unfold _build_canvas, placement. destruct (vmap1 astype_int position). reflexivity.
Qed.

Lemma placement_range imgs sl n position :
  let self := loader_of imgs sl n in
  0 <= fst (placement self position) <= width self - mnist_width self /\
  0 <= snd (placement self position) <= height self - mnist_height self.
Proof.
  unfold placement, vmap1, loader_of; cbn [fst snd lims width height mnist_width mnist_height].
  change (64 - 28) with 36.
  set (x := astype_int (fst position)). set (y := astype_int (snd position)).
  destruct (Z.ltb_spec x 0); destruct (Z.ltb_spec y 0);
    repeat match goal with |- context [?a >? ?b] => rewrite (Z.gtb_ltb a b) end;
    repeat match goal with |- context [?a <? ?b] => destruct (Z.ltb_spec a b) end;
    cbn [fst snd]; lia.
Qed.

Lemma placement_eq imgs sl n position :
  let self := loader_of imgs sl n in
  placement self position =
  (Z.min (width self - mnist_width self) (Z.max 0 (astype_int (fst position))),
   Z.min (height self - mnist_height self) (Z.max 0 (astype_int (snd position)))).
Proof.
  unfold placement, vmap1, loader_of; cbn [fst snd lims width height mnist_width mnist_height].
  change (64 - 28) with 36.
  set (x := astype_int (fst position)). set (y := astype_int (snd position)).
  destruct (Z.ltb_spec x 0); destruct (Z.ltb_spec y 0);
    repeat match goal with |- context [?a >? ?b] => rewrite (Z.gtb_ltb a b) end;
    repeat match goal with |- context [?a <? ?b] => destruct (Z.ltb_spec a b) end;
    f_equal; lia.
Qed.

Lemma getitem_In imgs index : imgs <> [] -> In (getitem imgs index) imgs.
Proof.
  intros Hne. unfold getitem. apply nth_In.
  assert (0 < length imgs)%nat by (destruct imgs; [congruence|simpl; lia]).
  unfold clamp. lia.
Qed.

Lemma getitem_ok imgs index : store_ok imgs -> sprite_ok (getitem imgs index).
Proof.
  intros [Hne Hall]. rewrite Forall_forall in Hall. apply Hall, getitem_In, Hne.
Qed.

Lemma in_box_spec imgs sl n start r c :
  in_box (loader_of imgs sl n) start r c = true <->
  (fst start <= r < fst start + 28) /\ (snd start <= c < snd start + 28).
Proof.
  unfold in_box; cbn [mnist_width mnist_height loader_of].
  rewrite !andb_true_iff, !Z.leb_le, !Z.ltb_lt. lia.
Qed.

Lemma sprite_dims sprite :
  sprite_ok sprite -> dim0 sprite = 28 /\ dim1 sprite = 28 /\ length sprite = 28%nat.
Proof.
  intros [[Hw Hh] _]. unfold dim0, dim1. rewrite Hw. repeat split.
  destruct sprite as [|row rows]; [discriminate|]. simpl.
  inversion Hh as [|? ? Hrow _]. now rewrite Hrow.
Qed.

Lemma pixel_sprite_range sprite r c :
  sprite_ok sprite -> 0 <= pixel sprite r c <= 255.
Proof.
  intros [_ Hv]. unfold pixel. destruct (_ || _); [lia|].
  destruct (Nat.lt_ge_cases (Z.to_nat r) (length sprite)) as [Hr|Hr].
  - rewrite Forall_forall in Hv.
    pose proof (Hv _ (nth_In sprite [] Hr)) as Hrow.
    destruct (Nat.lt_ge_cases (Z.to_nat c) (length (nth (Z.to_nat r) sprite [])))
      as [Hc|Hc].
    + rewrite Forall_forall in Hrow. apply Hrow, nth_In, Hc.
    + rewrite nth_overflow by exact Hc. lia.
  - rewrite (nth_overflow sprite) by exact Hr. destruct (Z.to_nat c); simpl; lia.
Qed.

(** A sprite written at a corner inside the admissible range lands whole
    on the canvas, and nothing else on the canvas is touched. *)
Lemma update_slice_canvas sprite x y :
  sprite_ok sprite -> 0 <= x <= 36 -> 0 <= y <= 36 ->
  let fig := dynamic_update_slice (zeros 64 64) sprite (x, y) in
  has_shape 64 64 fig /\
  forall r c,
    pixel fig r c =
    if (x <=? r) && (r <? x + 28) && (y <=? c) && (c <? y + 28)
    then pixel sprite (r - x) (c - y) else 0.
Proof.
  intros Hok Hx Hy fig.
  destruct (sprite_dims _ Hok) as (Hd0 & Hd1 & Hlen).
  assert (Hz0 : dim0 (zeros 64 64) = 64) by reflexivity.
  assert (Hz1 : dim1 (zeros 64 64) = 64) by reflexivity.
  assert (Hzl : length (zeros 64 64) = 64%nat) by reflexivity.
  assert (Hsx : slice_start 64 28 x = x).
  { unfold slice_start, clamp. destruct (Z.ltb_spec x 0); lia. }
  assert (Hsy : slice_start 64 28 y = y).
  { unfold slice_start, clamp. destruct (Z.ltb_spec y 0); lia. }
  assert (Hrows : forall r,
    nth r fig [] =
    if (Z.to_nat x <=? r)%nat && (r <? Z.to_nat x + 28)%nat
    then update_row (nth r (zeros 64 64) []) (nth (r - Z.to_nat x) sprite [])
                    (Z.to_nat y)
    else nth r (zeros 64 64) []).
  { intros r. subst fig. unfold dynamic_update_slice. cbn [fst snd].
    rewrite Hz0, Hz1, Hd0, Hd1, Hsx, Hsy.
    rewrite nth_update_rows by (rewrite Hlen, Hzl; lia).
    rewrite Hlen. reflexivity. }
  assert (Hfl : length fig = 64%nat).
  { subst fig. unfold dynamic_update_slice. cbn [fst snd].
    rewrite Hz0, Hz1, Hd0, Hd1, Hsx, Hsy.
    rewrite length_update_rows by (rewrite Hlen, Hzl; lia). exact Hzl. }
  assert (Hsrow : forall k, (k < 28)%nat -> length (nth k sprite []) = 28%nat).
  { intros k Hk. apply (has_shape_nth 28 28); [apply Hok|exact Hk]. }
  split.
  - apply has_shape_intro; [exact Hfl|]. intros r Hr. rewrite Hrows, nth_zeros.
    destruct (Nat.ltb_spec r (Z.to_nat 64)); [|lia].
    destruct (_ && _) eqn:E; [|apply repeat_length].
    apply andb_true_iff in E. destruct E as [E1 E2].
    apply Nat.leb_le in E1. apply Nat.ltb_lt in E2.
    rewrite length_update_row; rewrite ?repeat_length, ?Hsrow; lia.
  - intros r c. unfold pixel.
    destruct (Z.ltb_spec r 0) as [Hr|Hr]; cbn [orb].
    { destruct (Z.leb_spec x r); [lia|reflexivity]. }
    destruct (Z.ltb_spec c 0) as [Hc|Hc]; cbn [orb].
    { destruct (Z.leb_spec y c); [lia|]. now rewrite andb_false_r. }
    rewrite Hrows, nth_zeros.
    destruct (Nat.leb_spec (Z.to_nat x) (Z.to_nat r)) as [E1|E1];
      destruct (Z.leb_spec x r) as [F1|F1]; try lia; cbn [andb];
      [|destruct (_ <? _)%nat; [apply nth_repeat_0|now destruct (Z.to_nat c)]].
    destruct (Nat.ltb_spec (Z.to_nat r) (Z.to_nat x + 28)) as [E2|E2];
      destruct (Z.ltb_spec r (x + 28)) as [F2|F2]; try lia; cbn [andb];
      [|destruct (_ <? _)%nat; [apply nth_repeat_0|now destruct (Z.to_nat c)]].
    destruct (Nat.ltb_spec (Z.to_nat r) (Z.to_nat 64)); [|lia].
    rewrite nth_update_row by (rewrite repeat_length, Hsrow; lia).
    rewrite Hsrow by lia.
    destruct (Z.ltb_spec (r - x) 0); [lia|]. cbn [orb].
    destruct (Nat.leb_spec (Z.to_nat y) (Z.to_nat c)) as [G1|G1];
      destruct (Z.leb_spec y c) as [H1|H1]; try lia; cbn [andb];
      [|apply nth_repeat_0].
    destruct (Nat.ltb_spec (Z.to_nat c) (Z.to_nat y + 28)) as [G2|G2];
      destruct (Z.ltb_spec c (y + 28)) as [H2|H2]; try lia; cbn [andb];
      [|apply nth_repeat_0].
    destruct (Z.ltb_spec (c - y) 0); [lia|].
    replace (Z.to_nat (r - x)) with (Z.to_nat r - Z.to_nat x)%nat by lia.
    replace (Z.to_nat (c - y)) with (Z.to_nat c - Z.to_nat y)%nat by lia.
    reflexivity.
Qed.

Lemma nth_zip_with_default {A B C} (f : A -> B -> C) xs ys i da db :
  length xs = length ys ->
  nth i (zip_with f xs ys) (f da db) = f (nth i xs da) (nth i ys db).
Proof.
  revert ys i; induction xs as [|x xs IH]; intros [|y ys] [|i] H;
    simpl in *; try discriminate; auto.
Qed.

Lemma row_lengths_agree {A} w h (a b : list (list A)) r :
  has_shape w h a -> has_shape w h b -> length (nth r a []) = length (nth r b []).
Proof.
  intros Ha Hb. destruct (Nat.lt_ge_cases r w) as [Hr|Hr].
  - now rewrite (has_shape_nth w h a), (has_shape_nth w h b).
  - destruct Ha as [Ha _], Hb as [Hb _]. rewrite !nth_overflow by lia. reflexivity.
Qed.

Lemma pixel_image_add w h a b r c :
  has_shape w h a -> has_shape w h b ->
  pixel (image_add a b) r c = pixel a r c + pixel b r c.
Proof.
  intros Ha Hb. unfold pixel, image_add. destruct (_ || _); [reflexivity|].
  change (@nil Z) with (zip_with Z.add (@nil Z) (@nil Z)) at 1.
  rewrite nth_zip_with_default by (destruct Ha, Hb; congruence).
  change 0 with (0 + 0) at 1.
  apply nth_zip_with_default, (row_lengths_agree w h); assumption.
Qed.

Lemma image_add_shape w h a b :
  has_shape w h a -> has_shape w h b -> has_shape w h (image_add a b).
Proof.
  intros Ha Hb. unfold image_add. apply has_shape_intro.
  - rewrite zip_with_length. destruct Ha, Hb. lia.
  - intros r Hr.
    change (@nil Z) with (zip_with Z.add (@nil Z) (@nil Z)).
    rewrite nth_zip_with_default by (destruct Ha, Hb; congruence).
    rewrite zip_with_length, (has_shape_nth w h a), (has_shape_nth w h b); auto. lia.
Qed.

(** The loop of [_get_obsv], for any way [F] of drawing one digit. *)
Lemma fold_image_add {D} w h (F : D -> list (list Z)) l init :
  (forall d, has_shape w h (F d)) -> has_shape w h init ->
  has_shape w h (fold_left (fun canvas d => image_add canvas (F d)) l init) /\
  forall r c,
    pixel (fold_left (fun canvas d => image_add canvas (F d)) l init) r c =
    pixel init r c + fold_right Z.add 0 (map (fun d => pixel (F d) r c) l).
Proof.
  intros HF. revert init. induction l as [|d l IH]; intros init Hinit; simpl.
  - split; [exact Hinit|]. intros; lia.
  - destruct (IH (image_add init (F d)) (image_add_shape _ _ _ _ Hinit (HF d)))
      as [Hs Hp].
    split; [exact Hs|]. intros r c.
    rewrite Hp, (pixel_image_add w h) by auto. lia.
Qed.

Lemma sum_nonzero {D} (g : D -> Z) l :
  fold_right Z.add 0 (map g l) <> 0 -> exists d, In d l /\ g d <> 0.
Proof.
  induction l as [|d l IH]; simpl; [congruence|]. intros H.
  destruct (Z.eq_dec (g d) 0) as [E|E].
  - destruct IH as (d' & Hin & Hd'); [lia|]. exists d'. auto.
  - exists d. auto.
Qed.

Lemma sum_nonneg {D} (g : D -> Z) l :
  (forall d, 0 <= g d) -> 0 <= fold_right Z.add 0 (map g l).
Proof.
  intros Hg. induction l as [|d l IH]; simpl; [lia|]. specialize (Hg d). lia.
Qed.

Section WithStore.
Variables (imgs : list (list (list Z))) (sl n : Z).
Hypothesis Hstore : store_ok imgs.
Let self := loader_of imgs sl n.

Lemma build_canvas_spec index position :
  let fig := _build_canvas self index position in
  has_shape 64 64 fig /\
  forall r c,
    pixel fig r c =
    if in_box self (placement self position) r c
    then pixel (getitem imgs index)
               (r - fst (placement self position))
               (c - snd (placement self position))
    else 0.
Proof.
  intros fig. subst fig. rewrite build_canvas_eq.
  pose proof (placement_range imgs sl n position) as [Hx Hy]. fold self in Hx, Hy.
  destruct (placement self position) as [x y]. cbn [fst snd] in *.
  apply (update_slice_canvas (getitem imgs index) x y);
    [apply getitem_ok, Hstore|exact Hx|exact Hy].
Qed.

Lemma build_canvas_nonneg index position r c :
  0 <= pixel (_build_canvas self index position) r c <= 255.
Proof.
  destruct (build_canvas_spec index position) as [_ Hp]. rewrite Hp.
  destruct (in_box _ _ _ _); [|lia].
  apply pixel_sprite_range, getitem_ok, Hstore.
Qed.

Lemma summed_canvas_spec state :
  has_shape 64 64 (summed_canvas self state) /\
  forall r c, pixel (summed_canvas self state) r c = digit_sum self state r c.
Proof.
  destruct state as [[indexes positions] velocs].
  unfold summed_canvas, digit_sum. cbn [st_indexes st_positions fst snd].
  destruct (fold_image_add 64 64
              (fun ip : Z * (Q * Q) => _build_canvas self (fst ip) (snd ip))
              (combine indexes positions) (zeros (width self) (height self)))
    as [Hs Hp].
  - intros d. apply build_canvas_spec.
  - apply (zeros_shape 64 64).
  - split; [exact Hs|]. intros r c. rewrite Hp, pixel_zeros. lia.
Qed.

Lemma digit_sum_nonneg state r c : 0 <= digit_sum self state r c.
Proof.
  unfold digit_sum. apply sum_nonneg. intros d. apply build_canvas_nonneg.
Qed.
End WithStore.

End ImageFacts.

(** ** Rendered frames *)

Section FrameFacts.

Lemma qpixel_map (f : Z -> Q) a r c :
  (f 0%Z == 0)%Q -> (qpixel (map (map f) a) r c == f (pixel a r c))%Q.
Proof.
  intros Hf. unfold qpixel, pixel. destruct (_ || _); [now symmetry|].
  change (@nil Q) with (map f (@nil Z)). rewrite map_nth.
  destruct (Nat.lt_ge_cases (Z.to_nat c) (length (nth (Z.to_nat r) a []))) as [H|H].
  - rewrite (nth_indep _ 0%Q (f 0)) by (rewrite length_map; exact H).
    rewrite map_nth. reflexivity.
  - rewrite !nth_overflow by (rewrite ?length_map; exact H). now symmetry.
Qed.

Lemma get_obsv_eq self state :
  _get_obsv self state =
  map (map (fun v => normalize (saturate v))) (summed_canvas self state).
Proof.
  unfold _get_obsv. rewrite map_map. apply map_ext. intros row. apply map_map.
Qed.

Lemma saturate_range v : 0 <= v -> 0 <= saturate v <= 255.
Proof.
  intros H. unfold saturate. rewrite Z.gtb_ltb. destruct (Z.ltb_spec 255 v); lia.
Qed.

Lemma normalize_range x : 0 <= x <= 255 -> (0 <= normalize x /\ normalize x <= 1)%Q.
Proof.
  intros H. unfold normalize, Qdiv, Qmult, Qinv, Qle, inject_Z; cbn. lia.
Qed.

Lemma map_shape {A B} (f : A -> B) w h (a : list (list A)) :
  has_shape w h a -> has_shape w h (map (map f) a).
Proof.
  intros [Hw Hh]. split; [now rewrite length_map|].
  apply Forall_map. eapply Forall_impl; [|exact Hh].
  intros row Hrow. now rewrite length_map.
Qed.

Lemma entries_of_pixels (P : Z -> Prop) (a : list (list Z)) :
  (forall r c, P (pixel a r c)) -> Forall (Forall P) a.
Proof.
  intros H. apply Forall_nth. intros i d Hi. apply Forall_nth. intros j e Hj.
  specialize (H (Z.of_nat i) (Z.of_nat j)). unfold pixel in H.
  destruct (Z.ltb_spec (Z.of_nat i) 0); [lia|].
  destruct (Z.ltb_spec (Z.of_nat j) 0); [lia|]. cbn [orb] in H.
  rewrite !Nat2Z.id in H.
  rewrite (nth_indep a d []) in * by exact Hi.
  rewrite (nth_indep _ e 0) by exact Hj. exact H.
Qed.

(** C5. Whatever the position of a digit, its sprite is written with its
    corner at the truncated position clamped per axis to
    [0, canvas size - sprite size]; the canvas keeps its 64x64 shape, it
    holds the sprite inside that box and 0 elsewhere, and the box lies
    inside the canvas.  Hence every nonzero pixel of a rendered frame has
    coordinates in [0, width) x [0, height) and is covered by the box of
    one of the digits. *)
Theorem sprites_stay_on_canvas imgs sl n (state : DigitState) :
  store_ok imgs ->
  let self := loader_of imgs sl n in
  (forall index position,
      let start := placement self position in
      let fig := _build_canvas self index position in
      start = (Z.min (width self - mnist_width self)
                     (Z.max 0 (astype_int (fst position))),
               Z.min (height self - mnist_height self)
                     (Z.max 0 (astype_int (snd position)))) /\
      has_shape 64 64 fig /\
      (forall r c,
          pixel fig r c =
          if in_box self start r c
          then pixel (getitem imgs index) (r - fst start) (c - snd start)
          else 0) /\
      (forall r c, in_box self start r c = true ->
                   0 <= r < width self /\ 0 <= c < height self)) /\
  (forall r c,
      ~ (qpixel (_get_obsv self state) r c == 0)%Q ->
      (0 <= r < width self /\ 0 <= c < height self) /\
      exists index position,
        In (index, position) (combine (st_indexes state) (st_positions state)) /\
        in_box self (placement self position) r c = true).
Proof.
  intros Hstore self.
  assert (Hbox : forall position r c,
             in_box self (placement self position) r c = true ->
             0 <= r < width self /\ 0 <= c < height self).
  { intros position r c H. apply in_box_spec in H.
    pose proof (placement_range imgs sl n position) as [Hx Hy].
    fold self in Hx, Hy. cbn [width height mnist_width mnist_height self loader_of] in *.
    lia. }
  split.
  - intros index position start fig.
    split; [apply placement_eq|].
    destruct (build_canvas_spec imgs sl n Hstore index position) as [Hs Hp].
    split; [exact Hs|]. split; [exact Hp|]. apply Hbox.
  - intros r c Hnz.
    assert (Hsum : digit_sum self state r c <> 0).
    { intros E. apply Hnz. rewrite get_obsv_eq, qpixel_map by reflexivity.
      destruct (summed_canvas_spec imgs sl n Hstore state) as [_ Hp].
      fold self in Hp. rewrite Hp, E. reflexivity. }
    apply sum_nonzero in Hsum. destruct Hsum as ([index position] & Hin & Hpx).
    cbn [fst snd] in Hpx.
    destruct (build_canvas_spec imgs sl n Hstore index position) as [_ Hp].
    fold self in Hp. rewrite Hp in Hpx.
    destruct (in_box self (placement self position) r c) eqn:E; [|congruence].
    split; [apply (Hbox position), E|]. exists index, position. auto.
Qed.

(** C6. With sprite intensities in [0, 255] the frame is obtained pixel
    by pixel from the sum of the digits' canvases: the sum is capped at
    255 and divided by 255.  A pixel whose sum exceeds 255 renders as 1,
    a pixel whose sum does not renders as sum / 255, and every value of
    the frame lies in [0, 1]. *)
Theorem frame_saturates_and_normalizes imgs sl n (state : DigitState) :
  store_ok imgs ->
  let self := loader_of imgs sl n in
  let frame := _get_obsv self state in
  has_shape 64 64 frame /\
  (forall r c, pixel (summed_canvas self state) r c = digit_sum self state r c) /\
  (forall r c,
      (qpixel frame r c ==
       inject_Z (Z.min 255 (digit_sum self state r c)) / 255)%Q) /\
  (forall r c, 255 < digit_sum self state r c -> (qpixel frame r c == 1)%Q) /\
  Forall (Forall (fun v => 0 <= v /\ v <= 1)%Q) frame.
Proof.
  intros Hstore self frame.
  destruct (summed_canvas_spec imgs sl n Hstore state) as [Hs Hp]. fold self in Hs, Hp.
  assert (Hsat : forall v, saturate v = Z.min 255 v).
  { intros v. unfold saturate. rewrite Z.gtb_ltb. destruct (Z.ltb_spec 255 v); lia. }
  assert (Hq : forall r c,
             (qpixel frame r c ==
              inject_Z (Z.min 255 (digit_sum self state r c)) / 255)%Q).
  { intros r c. subst frame. rewrite get_obsv_eq, qpixel_map by reflexivity.
    rewrite Hp, Hsat. reflexivity. }
  split; [|split; [exact Hp|split; [exact Hq|split]]].
  - subst frame. rewrite get_obsv_eq. apply map_shape, Hs.
  - intros r c Hbig. rewrite Hq. rewrite Z.min_l by lia. reflexivity.
  - subst frame. rewrite get_obsv_eq. apply Forall_map.
    assert (Hnn : Forall (Forall (fun v => 0 <= v)) (summed_canvas self state)).
    { apply entries_of_pixels. intros r c. rewrite Hp.
      apply digit_sum_nonneg, Hstore. }
    eapply Forall_impl; [|exact Hnn]. intros row Hrow. apply Forall_map.
    eapply Forall_impl; [|exact Hrow]. intros v Hv. cbv beta.
    apply normalize_range, saturate_range, Hv.
Qed.

End FrameFacts.

(** ** Sequences *)

Section SequenceFacts.
Context {J : Jax}.

Lemma res_obsv_step {Action} self env (a : Action) :
  res_obsv (step self env a) = _get_obsv self (fst (res_env (step self env a))).
Proof. destruct env as [[[indexes positions] velocs] key]. reflexivity. Qed.

Lemma scan_func_eq {X} self carry (x : X) :
  scan_func self carry x = (res_env (step self carry x), res_obsv (step self carry x)).
Proof. destruct carry as [[[indexes positions] velocs] key]. reflexivity. Qed.

Lemma scan_null_actions self n init :
  snd (scan (scan_func self) init (repeat tt n)) =
  map (fun i => res_obsv (step self (steps self i init tt) tt)) (seq 0 n).
Proof.
  revert init. induction n as [|n IH]; intros init; [reflexivity|].
  cbn [repeat scan]. rewrite scan_func_eq.
  specialize (IH (res_env (step self init tt))).
  destruct (scan (scan_func self) (res_env (step self init tt)) (repeat tt n))
    as [final ys].
  cbn [snd] in *. rewrite IH. cbn [seq map steps]. f_equal.
  rewrite <- seq_shift, map_map. reflexivity.
Qed.

Lemma build_seq_eq self key :
  build_seq self key =
  map (fun i => res_obsv (step self (steps self i (fst (reset self key)) tt) tt))
      (seq 0 (Z.to_nat (seq_len self))).
Proof.
  unfold build_seq. rewrite <- scan_null_actions.
  destruct (reset self key) as [init frame0]. cbn [fst].
  destruct (scan _ init _) as [final ys]. reflexivity.
Qed.

(** C3. For a sequence length that is not negative, [build_seq] returns
    exactly [seq_len] frames.  They are computed from the state that
    [reset] returns and not from the frame it renders: frame [i] is the
    observation of the step taken, with the null action, after [i] earlier
    steps, that is the rendering of the state after [i + 1] steps; the
    first frame is the one [step] produces from the reset state. *)
Theorem build_seq_frames self (key : Key) :
  0 <= seq_len self ->
  let init := fst (reset self key) in
  Z.of_nat (length (build_seq self key)) = seq_len self /\
  build_seq self key =
    map (fun i => res_obsv (step self (steps self i init tt) tt))
        (seq 0 (Z.to_nat (seq_len self))) /\
  (forall i, (i < Z.to_nat (seq_len self))%nat ->
             nth_error (build_seq self key) i =
             Some (_get_obsv self (fst (steps self (S i) init tt)))) /\
  (0 < seq_len self ->
   hd_error (build_seq self key) = Some (res_obsv (step self init tt))).
Proof.
  intros Hlen init. rewrite build_seq_eq. fold init.
  split; [rewrite length_map, length_seq; lia|]. split; [reflexivity|]. split.
  - intros i Hi. rewrite nth_error_map, nth_error_seq.
    destruct (Nat.ltb_spec i (Z.to_nat (seq_len self))); [|lia].
    cbn [option_map Nat.add]. rewrite res_obsv_step, <- steps_S. reflexivity.
  - intros Hpos. destruct (Z.to_nat (seq_len self)) as [|m] eqn:E; [lia|].
    reflexivity.
Qed.

End SequenceFacts.

(** ** Fresh episodes *)

Section ResetFacts.
Context {J : Jax} {JS : JaxSpec J}.

Lemma heading_range u :
  (0 <= u /\ u < 1)%Q ->
  (- jnp_pi_f32 <= jnp_pi_f32 * (u * 2 - 1) /\
   jnp_pi_f32 * (u * 2 - 1) < jnp_pi_f32)%Q.
Proof.
  assert (Hp : (0 < jnp_pi_f32)%Q) by reflexivity.
  generalize dependent jnp_pi_f32. intros p Hp [H0 H1]. split; nra.
Qed.

(** C4, as the code has it.  [_reset] splits the key four times, each
    time keeping the first child as the running key and drawing from the
    second: (a) one heading per digit, p * (2u - 1) for u drawn in [0, 1)
    and p the float32 nearest to pi, which is what [jnp.pi] becomes in this
    float32 product; hence a heading in [-p, p), the lower end included
    (it is the heading of a draw u = 0, and it lies just below -pi) and the
    upper end excluded; (b) one sprite index per digit in [0, num_images);
    (c) one
    integer speed per digit in [2, 7), drawn in [0, 5) and shifted by 2;
    (d) one position per digit, each coordinate in
    [0, canvas size - sprite size].  The velocity of a digit is
    (speed * cos heading, speed * sin heading), and the key returned is the
    running key after the fourth split. *)
Theorem reset_draws_in_order imgs sl n (key : Key) :
  imgs <> [] -> 0 <= n ->
  let self := loader_of imgs sl n in
  let l := reset_locals self key in
  let k1 := random_split key in
  let k2 := random_split (fst k1) in
  let k3 := random_split (fst k2) in
  let k4 := random_split (fst k3) in
  _reset self key = ((indexes_ l, positions_ l, velocs_ l), fst k4) /\
  (direcs l = map (fun u => jnp_pi_f32 * (u * 2 - 1))%Q
                   (random_uniform (snd k1) n) /\
   length (direcs l) = Z.to_nat n /\
   Forall (fun h => - jnp_pi_f32 <= h /\ h < jnp_pi_f32)%Q (direcs l)) /\
  (indexes_ l = random_randint (snd k2) n 0 (num_images self) /\
   length (indexes_ l) = Z.to_nat n /\
   Forall (fun i => 0 <= i < num_images self) (indexes_ l)) /\
  (speeds l = map (fun s => s + 2) (random_randint (snd k3) n 0 5) /\
   length (speeds l) = Z.to_nat n /\
   Forall (fun s => 2 <= s < 7) (speeds l)) /\
  (positions_ l =
     random_uniform2 (snd k4) n 0
       (inject_Z (width self - mnist_width self),
        inject_Z (height self - mnist_height self)) /\
   length (positions_ l) = Z.to_nat n /\
   Forall (fun p => (0 <= fst p /\ fst p <= inject_Z (width self - mnist_width self))
                    /\ (0 <= snd p /\ snd p <= inject_Z (height self - mnist_height self)))%Q
          (positions_ l)) /\
  (length (velocs_ l) = Z.to_nat n /\
   forall i direc speed,
     nth_error (direcs l) i = Some direc -> nth_error (speeds l) i = Some speed ->
     nth_error (velocs_ l) i =
     Some (inject_Z speed * jnp_cos direc, inject_Z speed * jnp_sin direc)%Q).
Proof.
  intros Hne Hn self l k1 k2 k3 k4.
  assert (Hnum : 0 < num_images self).
  { cbn. destruct imgs; [congruence|]. cbn [length]. lia. }
  assert (Hd : length (direcs l) = Z.to_nat n).
  { cbn. rewrite length_map. apply uniform_length, Hn. }
  assert (Hs : length (speeds l) = Z.to_nat n).
  { cbn. rewrite length_map. apply randint_length, Hn. }
  split; [reflexivity|]. split; [|split; [|split; [|split]]].
  - split; [reflexivity|]. split; [exact Hd|].
    cbn. apply Forall_map, Forall_forall. intros u Hu.
    apply heading_range. eapply uniform_range, Hu.
  - split; [reflexivity|]. split; [apply randint_length, Hn|].
    apply Forall_forall. intros i Hi. eapply randint_range; [exact Hnum|exact Hi].
  - split; [reflexivity|]. split; [exact Hs|].
    cbn. apply Forall_map, Forall_forall. intros s Hin.
    assert (0 <= s < 5) by (eapply randint_range; [lia|exact Hin]). lia.
  - split; [reflexivity|]. split; [apply uniform2_length, Hn|].
    apply Forall_forall. intros p Hp.
    destruct (uniform2_range _ _ 0%Q (inject_Z 36, inject_Z 36) p
                             eq_refl eq_refl Hp) as [[Hx0 Hx1] [Hy0 Hy1]].
    cbn [fst snd] in *. repeat split; auto using Qlt_le_weak.
  - split.
    + change (velocs_ l) with
        (zip_with (fun direc speed =>
                     (inject_Z speed * jnp_cos direc, inject_Z speed * jnp_sin direc)%Q)
                  (direcs l) (speeds l)).
      rewrite zip_with_length, Hd, Hs. lia.
    + intros i direc speed Hdi Hsi.
      change (velocs_ l) with
        (zip_with (fun direc speed =>
                     (inject_Z speed * jnp_cos direc, inject_Z speed * jnp_sin direc)%Q)
                  (direcs l) (speeds l)).
      rewrite nth_error_zip_with, Hdi, Hsi. reflexivity.
Qed.

End ResetFacts.

(** ** Batches *)

Section BatchFacts.
Context {J : Jax} {JS : JaxSpec J}.

Lemma get_obsv_shape imgs sl n state :
  store_ok imgs -> has_shape 64 64 (_get_obsv (loader_of imgs sl n) state).
Proof.
  intros Hstore. rewrite get_obsv_eq.
  apply map_shape, (summed_canvas_spec imgs sl n Hstore state).
Qed.

Lemma expand_shape (frame : list (list Q)) :
  has_shape 64 64 frame ->
  has_shape 64 64 (map (map (fun v => [v])) frame) /\
  Forall (Forall (fun px => length px = 1%nat)) (map (map (fun v => [v])) frame).
Proof.
  intros H. split; [apply map_shape, H|].
  apply Forall_map, Forall_forall. intros row _.
  apply Forall_map, Forall_forall. reflexivity.
Qed.

Lemma build_seq_shape imgs sl n (key : Key) :
  store_ok imgs -> 0 <= sl ->
  let ys := build_seq (loader_of imgs sl n) key in
  length ys = Z.to_nat sl /\ Forall (has_shape 64 64) ys.
Proof.
  intros Hstore Hsl ys. subst ys. rewrite build_seq_eq.
  split; [now rewrite length_map, length_seq|].
  apply Forall_map, Forall_forall. intros i _.
  rewrite res_obsv_step. apply get_obsv_shape, Hstore.
Qed.

(** The generator after any number of pulls differs from the initial one
    in its key only. *)
Lemma nth_batch_next g m :
  exists key,
    nth_batch g m =
    fst (next {| jaxLoader := jaxLoader g; batch_size := batch_size g;
                 action_ := action_ g; is_first_ := is_first_ g;
                 next_key := key |}).
Proof.
  revert g. induction m as [|m IH]; intros g.
  - exists (next_key g). destruct g; reflexivity.
  - destruct (IH (snd (next g))) as [key Hkey]. exists key. exact Hkey.
Qed.

Lemma jaxMMNIST_inr mnist train bs nsrc k sl g :
  jaxMMNIST mnist train bs nsrc k sl = inr g ->
  0 <= bs /\ 0 <= sl /\
  (exists imgs, jaxLoader g = loader_of imgs sl k) /\
  batch_size g = bs /\
  action_ g = repeat (repeat (repeat 0%Q 2) (Z.to_nat sl)) (Z.to_nat bs) /\
  exists nb,
    Z.to_nat bs = S nb /\
    is_first_ g = repeat true (Z.to_nat sl) :: repeat (repeat false (Z.to_nat sl)) nb.
Proof.
  unfold jaxMMNIST, jnp_zeros3, jnp_zeros2.
  destruct (rearrange_squeeze _) as [e|imgs]; [discriminate|]. cbn [bind __init__].
  destruct (Z.ltb_spec bs 0) as [Hb|Hb]; [discriminate|].
  destruct (Z.ltb_spec sl 0) as [Hs|Hs]; [discriminate|]. cbn [orb bind].
  destruct (Z.to_nat bs) as [|nb] eqn:Hnb; cbn [repeat at0_set bind];
    [discriminate|].
  intros H. inversion H; subst; clear H.
  cbn [jaxLoader batch_size action_ is_first_].
  split; [exact Hb|]. split; [exact Hs|]. split; [exists imgs; reflexivity|].
  split; [reflexivity|]. split; [reflexivity|].
  exists nb. split; [reflexivity|]. now rewrite map_repeat.
Qed.

(** C7. Every batch of a generator whose sprite store is well formed has
    an image array of shape (batch_size, seq_len, 64, 64, 1), an action
    array of shape (batch_size, seq_len, 2) that is 0 everywhere, and an
    [is_first] array of shape (batch_size, seq_len) that is true on the
    whole of row 0 and false on every other row; the action and
    [is_first] arrays are the same for all batches. *)
Theorem batch_shape_and_tags mnist train bs nsrc k sl g m :
  jaxMMNIST mnist train bs nsrc k sl = inr g ->
  store_ok (images (jaxLoader g)) ->
  let b := nth_batch g m in
  image_shape (Z.to_nat bs) (Z.to_nat sl) (image b) /\
  action b = repeat (repeat (repeat 0%Q 2) (Z.to_nat sl)) (Z.to_nat bs) /\
  (length (is_first b) = Z.to_nat bs /\
   Forall (fun row => length row = Z.to_nat sl) (is_first b) /\
   forall i t, (i < Z.to_nat bs)%nat -> (t < Z.to_nat sl)%nat ->
               nth t (nth i (is_first b) []) false = (i =? 0)%nat) /\
  (forall m', action (nth_batch g m') = action b /\
              is_first (nth_batch g m') = is_first b).
Proof.
  intros Hg Hstore b.
  destruct (jaxMMNIST_inr _ _ _ _ _ _ _ Hg)
    as (Hbs & Hsl & [imgs Hl] & Hb & Ha & nb & Hnb & Hf).
  rewrite Hl in Hstore. cbn [images loader_of] in Hstore.
  assert (Htags : forall j, action (nth_batch g j) = action_ g /\
                            is_first (nth_batch g j) = is_first_ g).
  { intros j. destruct (nth_batch_next g j) as [key ->]. split; reflexivity. }
  destruct (Htags m) as [Hact Hfirst]. fold b in Hact, Hfirst.
  split; [|split; [|split]].
  - subst b. destruct (nth_batch_next g m) as [key ->].
    cbn [next fst image next_key batch_size jaxLoader]. rewrite Hl, Hb.
    unfold rearrange_expand, image_shape.
    split; [rewrite !length_map; apply split_num_length, Hbs|].
    apply Forall_map, Forall_map, Forall_forall. intros skey _.
    destruct (build_seq_shape imgs sl k skey Hstore Hsl) as [Hlen Hall].
    split; [now rewrite length_map|].
    apply Forall_map. eapply Forall_impl; [|exact Hall].
    intros frame Hframe. apply expand_shape, Hframe.
  - now rewrite Hact.
  - rewrite Hfirst, Hf, Hnb.
    split; [cbn [length]; now rewrite repeat_length|]. split.
    + constructor; [now rewrite repeat_length|].
      apply Forall_forall. intros row Hrow. apply repeat_spec in Hrow. subst.
      apply repeat_length.
    + intros [|i] t Hi Ht; cbn [nth Nat.eqb].
      * rewrite (nth_indep _ false true) by (now rewrite repeat_length).
        apply nth_repeat.
      * rewrite (nth_indep _ [] (repeat false (Z.to_nat sl)))
          by (rewrite repeat_length; lia).
        rewrite nth_repeat. apply nth_repeat.
  - intros m'. destruct (Htags m') as [-> ->]. now rewrite Hact, Hfirst.
Qed.

End BatchFacts.

(** ** The constructor *)

(** C2, as the code has it.  The constructor checks nothing: for any image
    array, also an empty one, and any integers given as sequence length and
    number of digits, also zero or negative ones, it succeeds and stores
    what it was given; the only failure at construction is the attribute
    error raised when the images are left at [None]. *)
Theorem init_does_not_validate (imgs : list (list (list Z))) (sl n : Z) :
  __init__ (Some imgs) sl n = inr (loader_of imgs sl n) /\
  images (loader_of imgs sl n) = imgs /\
  num_images (loader_of imgs sl n) = Z.of_nat (length imgs) /\
  seq_len (loader_of imgs sl n) = sl /\
  nums_per_image (loader_of imgs sl n) = n /\
  __init__ None sl n = inl AttributeError.
Proof. repeat split. Qed.

(** C2 as stated fails: with an empty sprite collection, sequence length 0
    and 0 digits the constructor returns a loader. *)
Lemma init_accepts_bad_configuration :
  ~ (forall images sl n,
        sl <= 0 \/ images = Some [] \/ n < 1 ->
        exists e, __init__ images sl n = inl e).
Proof.
  intros H. destruct (H (Some []) 0 0) as [e He]; [left; lia|]. discriminate He.
Qed.

(** ** The deterministic instance meets the contract of the draws *)

Lemma eighth_range m : 0 <= m < 8 -> (0 <= m # 8 /\ m # 8 < 1)%Q.
Proof. intros H. unfold Qle, Qlt; cbn. lia. Qed.

Lemma cycle_uniform_range k n u : In u (cycle_uniform k n) -> (0 <= u /\ u < 1)%Q.
Proof.
  unfold cycle_uniform. rewrite in_map_iff. intros (i & <- & _).
  apply eighth_range, Z.mod_pos_bound. lia.
Qed.

Lemma stretch_range lo hi u :
  (lo < hi)%Q -> (0 <= u /\ u < 1)%Q ->
  (lo <= lo + (hi - lo) * u /\ lo + (hi - lo) * u < hi)%Q.
Proof. intros H [H0 H1]. split; nra. Qed.

#[export] Instance CycleJax_spec : JaxSpec CycleJax.
Proof.
  constructor; cbn [CycleJax random_split_num random_uniform random_uniform2
                    random_randint].
  - intros k n _. now rewrite length_map, length_seq.
  - intros k n _. unfold cycle_uniform. now rewrite length_map, length_seq.
  - apply cycle_uniform_range.
  - intros k n lo hi _. unfold cycle_uniform2, cycle_uniform.
    now rewrite !length_map, length_seq.
  - intros k n lo hi p H1 H2. unfold cycle_uniform2. rewrite in_map_iff.
    intros (u & <- & Hu). apply cycle_uniform_range in Hu. cbn [fst snd].
    split; apply stretch_range; assumption.
  - intros k n lo hi _. unfold cycle_randint. now rewrite length_map, length_seq.
  - intros k n lo hi i Hlt. unfold cycle_randint. rewrite in_map_iff.
    intros (j & <- & _).
    pose proof (Z.mod_pos_bound (k + Z.of_nat j) (hi - lo)). lia.
Qed.

Lemma flat_sprite_ok v : 0 <= v <= 255 -> sprite_ok (flat_sprite v).
Proof.
  intros Hv. unfold flat_sprite. split; [split|].
  - apply repeat_length.
  - apply Forall_forall. intros row Hrow. apply repeat_spec in Hrow. subst.
    apply repeat_length.
  - apply Forall_forall. intros row Hrow. apply repeat_spec in Hrow. subst.
    apply Forall_forall. intros x Hx. apply repeat_spec in Hx. now subst.
Defined.

Lemma two_sprites_ok : store_ok two_sprites.
Proof.
  split; [discriminate|].
  apply Forall_cons; [apply flat_sprite_ok; lia|].
  apply Forall_cons; [apply flat_sprite_ok; lia|].
  apply Forall_nil.
Defined.

Lemma small_generator_built :
  jaxMMNIST two_sprite_mnist true 2 2 1 3 = inr small_generator.
Proof. vm_compute. reflexivity. Defined.

(** ** Concrete runs *)

(** A digit at (37, 10) moving by (3, -2): the predicted x is 40, beyond
    36 + 2, so the x velocity is reversed; the predicted y is 8. *)
Lemma step_reflects_per_axis_witness :
  let self := loader_of two_sprites 3 1 in
  let env : @EnvState CycleJax := (([0], [(37, 10)%Q], [(3, -2)%Q]), 5) in
  let next := fst (res_env (step self env tt)) in
  exists v',
    nth_error (st_velocs next) 0 = Some v' /\
    reflected (inject_Z (width self - mnist_width self)) (37 + 3) 3 (fst v') /\
    reflected (inject_Z (height self - mnist_height self)) (10 + -2) (-2) (snd v') /\
    nth_error (st_positions next) 0 = Some (37 + fst v', 10 + snd v')%Q.
Proof.
  exact (step_reflects_per_axis two_sprites 3 1 [0] [(37, 10)%Q] [(3, -2)%Q] 5 tt
                                0%nat (37, 10)%Q (3, -2)%Q eq_refl eq_refl).
Defined.

Lemma step_preserves_speed_witness :
  let self := loader_of two_sprites 3 1 in
  let env : @EnvState CycleJax := (([0], [(37, 10)%Q], [(3, -2)%Q]), 5) in
  state_ok (fst env) /\
  map (vmap1 Qabs) (st_velocs (fst (steps self 4 env tt))) = [(3, 2)%Q].
Proof.
  intros self env.
  assert (Hok : state_ok (fst env)) by reflexivity.
  split; [exact Hok|].
  exact (proj1 (proj2 (step_preserves_speed self env tt 4 Hok))).
Defined.

Lemma build_seq_frames_witness :
  Z.of_nat (length (build_seq (loader_of two_sprites 3 1) (5 : @Key CycleJax))) = 3.
Proof.
  apply (build_seq_frames (J := CycleJax) (loader_of two_sprites 3 1) 5). cbn. lia.
Defined.

Lemma reset_draws_in_order_witness :
  Forall (fun h => - jnp_pi_f32 <= h /\ h < jnp_pi_f32)%Q
         (direcs (reset_locals (loader_of two_sprites 3 2) (3 : @Key CycleJax))).
Proof.
  assert (Hne : two_sprites <> []) by discriminate.
  assert (Hn : 0 <= 2) by lia.
  exact (proj2 (proj2 (proj1 (proj2
           (reset_draws_in_order (J := CycleJax) two_sprites 3 2 3 Hne Hn))))).
Defined.

Lemma sprites_stay_on_canvas_witness :
  has_shape 64 64 (_build_canvas (loader_of two_sprites 3 1) 0 (1000, -1000)%Q).
Proof.
  exact (proj1 (proj2 (proj1
           (sprites_stay_on_canvas two_sprites 3 1 ([0], [(0, 0)%Q], [(0, 0)%Q])
                                   two_sprites_ok) 0 (1000, -1000)%Q))).
Defined.

(** Two overlapping sprites of intensity 200 and 100: the sum 300 renders
    as 1. *)
Lemma frame_saturates_and_normalizes_witness :
  let state : DigitState := ([0; 1], [(3, 3)%Q; (5, 5)%Q], [(0, 0)%Q; (0, 0)%Q]) in
  (qpixel (_get_obsv (loader_of two_sprites 3 2) state) 10 10 == 1)%Q.
Proof.
  intros state.
  apply (frame_saturates_and_normalizes two_sprites 3 2 state two_sprites_ok).
  vm_compute. reflexivity.
Defined.

Lemma batch_shape_and_tags_witness :
  image_shape 2 3 (image (nth_batch small_generator 1)).
Proof.
  exact (proj1 (batch_shape_and_tags two_sprite_mnist true 2 2 1 3
                                     small_generator 1
                                     small_generator_built two_sprites_ok)).
Defined.

(** The factor of the headings is larger than the double [jnp.pi]. *)
Lemma jnp_pi_below_f32 : (jnp_pi < jnp_pi_f32)%Q.
Proof. reflexivity. Qed.

(** C4 as stated fails at the lower end of the headings: a uniform draw
    may be exactly 0, and then the heading is minus the float32 nearest to
    pi, -13176795 / 4194304.  That float32 is larger than pi, so the
    heading is below -pi and outside (-pi, pi]; the same holds with any
    value up to that float32 in the place of pi, the double [jnp.pi]
    included. *)
Lemma reset_heading_can_be_minus_pi :
  ~ (exists pi : Q,
       (pi <= jnp_pi_f32)%Q /\
       forall (J : Jax), JaxSpec J ->
       forall imgs sl n (key : Key) h,
         imgs <> [] -> 0 <= n ->
         In h (direcs (reset_locals (loader_of imgs sl n) key)) ->
         (- pi < h /\ h <= pi)%Q).
Proof.
  intros (pi & Hpi & H).
  assert (Hne : two_sprites <> []) by discriminate.
  assert (Hn : 0 <= 1) by lia.
  assert (Hh : (jnp_pi_f32 * ((0 # 8) * 2 - 1) == - jnp_pi_f32)%Q)
    by (vm_compute; reflexivity).
  destruct (H CycleJax CycleJax_spec two_sprites 3 1 3
              (jnp_pi_f32 * ((0 # 8) * 2 - 1))%Q Hne Hn) as [Hlow _].
  - left. reflexivity.
  - rewrite Hh in Hlow. lra.
Qed.

(** * Further properties *)

(** ** Episodes *)

Section EpisodeFacts.
Context {J : Jax}.

Lemma Qltb_ge x y : Qltb x y = false -> (y <= x)%Q.
Proof.
  intros H. apply Qnot_lt_le. intros Hlt. apply Qltb_lt in Hlt. congruence.
Qed.

Lemma nth_error_bounced_inv self positions velocs i v' :
  nth_error (bounced self positions velocs) i = Some v' ->
  exists p v,
    nth_error positions i = Some p /\ nth_error velocs i = Some v /\
    v' = (flip self (fst p + fst v) (fst v), flip self (snd p + snd v) (snd v)).
Proof.
  destruct (nth_error positions i) as [p|] eqn:Hp;
    destruct (nth_error velocs i) as [v|] eqn:Hv.
  - rewrite (nth_error_bounced self _ _ _ _ _ Hp Hv). intros [= <-].
    exists p, v. auto.
  - unfold bounced, select, arr_or, arr_lt, arr_gt, arr_scale, arr_add.
    repeat (rewrite nth_error_zip_with || rewrite nth_error_map).
    rewrite Hp, Hv. discriminate.
  - unfold bounced, select, arr_or, arr_lt, arr_gt, arr_scale, arr_add.
    repeat (rewrite nth_error_zip_with || rewrite nth_error_map).
    rewrite Hp, Hv. discriminate.
  - unfold bounced, select, arr_or, arr_lt, arr_gt, arr_scale, arr_add.
    repeat (rewrite nth_error_zip_with || rewrite nth_error_map).
    rewrite Hp, Hv. discriminate.
Qed.

Lemma Forall_nth_error {A} (P : A -> Prop) l :
  Forall P l <-> forall i x, nth_error l i = Some x -> P x.
Proof.
  rewrite Forall_forall. split.
  - intros H i x Hi. eapply H, nth_error_In, Hi.
  - intros H x Hin. apply In_nth_error in Hin. destruct Hin as [i Hi]. eauto.
Qed.

(** One coordinate: inside the band and not too fast, it is inside the
    band after the tick, whether it was turned around or not. *)
Lemma flip_in_band imgs sl n p v :
  (-2 <= p /\ p <= 38)%Q -> (-20 <= v /\ v <= 20)%Q ->
  let v' := flip (loader_of imgs sl n) (p + v) v in
  (-2 <= p + v' /\ p + v' <= 38)%Q /\ (-20 <= v' /\ v' <= 20)%Q.
Proof.
  intros [Hp0 Hp1] [Hv0 Hv1]. unfold flip.
  change (inject_Z (fst (lims (loader_of imgs sl n)) + 2)) with 38%Q.
  destruct (Qltb (p + v) (-2)) eqn:E1; cbn [orb].
  - apply Qltb_lt in E1. repeat split; lra.
  - apply Qltb_ge in E1. destruct (Qltb 38 (p + v)) eqn:E2.
    + apply Qltb_lt in E2. repeat split; lra.
    + apply Qltb_ge in E2. repeat split; lra.
Qed.

Lemma step_in_band {Action} imgs sl n (env : EnvState) (a : Action) :
  let self := loader_of imgs sl n in
  Forall in_band (st_positions (fst env)) -> Forall slow (st_velocs (fst env)) ->
  Forall in_band (st_positions (fst (res_env (step self env a)))) /\
  Forall slow (st_velocs (fst (res_env (step self env a)))).
Proof.
  intros self. destruct env as [[[indexes positions] velocs] key].
  rewrite step_unfold. cbn [res_env st_positions st_velocs fst snd].
  rewrite !Forall_nth_error. intros Hband Hslow. split.
  - intros i q Hq. unfold arr_add in Hq. rewrite nth_error_zip_with in Hq.
    destruct (nth_error positions i) as [p|] eqn:Hp; [|discriminate].
    destruct (nth_error (bounced self positions velocs) i) as [v'|] eqn:Hb;
      [|discriminate].
    injection Hq as <-.
    destruct (nth_error_bounced_inv _ _ _ _ _ Hb) as (p0 & v & Hp0 & Hv & ->).
    assert (p0 = p) by congruence. subst p0.
    destruct (Hband i p Hp) as [Hx Hy]. destruct (Hslow i v Hv) as [Hvx Hvy].
    split; cbn [vmap2 fst snd].
    + apply (flip_in_band imgs sl n (fst p) (fst v) Hx Hvx).
    + apply (flip_in_band imgs sl n (snd p) (snd v) Hy Hvy).
  - intros i v' Hb.
    destruct (nth_error_bounced_inv _ _ _ _ _ Hb) as (p & v & Hp & Hv & ->).
    destruct (Hband i p Hp) as [Hx Hy]. destruct (Hslow i v Hv) as [Hvx Hvy].
    split; cbn [fst snd].
    + apply (flip_in_band imgs sl n (fst p) (fst v) Hx Hvx).
    + apply (flip_in_band imgs sl n (snd p) (snd v) Hy Hvy).
Qed.

Lemma steps_in_band {Action} imgs sl n (env : EnvState) (a : Action) m :
  Forall in_band (st_positions (fst env)) -> Forall slow (st_velocs (fst env)) ->
  Forall in_band (st_positions (fst (steps (loader_of imgs sl n) m env a))) /\
  Forall slow (st_velocs (fst (steps (loader_of imgs sl n) m env a))).
Proof.
  intros Hband Hslow. induction m as [|m IH]; [split; assumption|].
  rewrite steps_S. destruct IH as [IH1 IH2].
  apply (step_in_band imgs sl n); assumption.
Qed.

(** X1. A digit whose coordinates lie in the band from -2 to 38 and whose
    velocity components are at most 20 in absolute value never leaves the
    band: after any number of ticks all positions are still in the band
    and all velocities still that slow. *)
Theorem digits_stay_in_band {Action} imgs sl n (env : EnvState) (a : Action) m :
  let self := loader_of imgs sl n in
  Forall in_band (st_positions (fst env)) -> Forall slow (st_velocs (fst env)) ->
  Forall in_band (st_positions (fst (steps self m env a))) /\
  Forall slow (st_velocs (fst (steps self m env a))).
Proof.
  intros self. apply steps_in_band.
Qed.

(** X2. [step] always reports [done = False], so [_maybe_reset] applied to
    what [step] returns leaves the environment as it is: an episode never
    restarts by itself.  When [done] is true, the new environment is the
    one [reset] draws from the key alone, whatever the digits were. *)
Theorem maybe_reset_after_step {Action} self (env : EnvState) (a : Action) :
  _maybe_reset self (res_env (step self env a)) (res_done (step self env a))
    = res_env (step self env a) /\
  (forall state1 state2 (key : Key),
      _maybe_reset self (state1, key) true = fst (reset self key) /\
      _maybe_reset self (state1, key) true = _maybe_reset self (state2, key) true).
Proof.
  destruct env as [[[indexes positions] velocs] key].
  rewrite step_unfold. split; [reflexivity|]. intros. split; reflexivity.
Qed.

End EpisodeFacts.

(** ** Truncation and placement *)

Section PlacementFacts.

Lemma astype_int_nonneg q :
  (0 <= q)%Q ->
  0 <= astype_int q /\ (inject_Z (astype_int q) <= q)%Q /\
  (q < inject_Z (astype_int q + 1))%Q.
Proof.
  destruct q as [a b]. unfold astype_int, Qle, Qlt, inject_Z; cbn [Qnum Qden].
  intros Ha. assert (0 <= a) by lia.
  rewrite Z.quot_div_nonneg by lia.
  pose proof (Z.mul_div_le a (Z.pos b) ltac:(lia)).
  pose proof (Z.mul_succ_div_gt a (Z.pos b) ltac:(lia)).
  pose proof (Z.div_pos a (Z.pos b) ltac:(lia) ltac:(lia)).
  repeat split; lia.
Qed.

Lemma astype_int_nonpos q : (q <= 0)%Q -> astype_int q <= 0.
Proof.
  destruct q as [a b]. unfold astype_int, Qle; cbn [Qnum Qden]. intros Ha.
  assert (Hle : a <= 0) by lia.
  apply (Z.quot_le_mono a 0 (Z.pos b)) in Hle; [|lia].
  rewrite Z.quot_0_l in Hle by lia. exact Hle.
Qed.

(** Clamping the truncated coordinate to [0, 36]. *)
Lemma clamp_tracks q :
  tracks q (Z.min 36 (Z.max 0 (astype_int q))).
Proof.
  unfold tracks. split; [|split].
  - intros Hq. destruct (Qlt_le_dec q 0) as [Hneg|Hpos].
    + pose proof (astype_int_nonpos q (Qlt_le_weak _ _ Hneg)). lia.
    + destruct (astype_int_nonneg q Hpos) as (H0 & Hlo & _).
      assert (inject_Z (astype_int q) < 1)%Q as Hlt by (eapply Qle_lt_trans; eauto).
      unfold Qlt, inject_Z in Hlt; cbn in Hlt. lia.
  - intros Hq. assert (Hpos : (0 <= q)%Q) by (eapply Qle_trans; [|exact Hq]; discriminate).
    destruct (astype_int_nonneg q Hpos) as (H0 & _ & Hhi).
    assert (36 < inject_Z (astype_int q + 1))%Q as Hlt by (eapply Qle_lt_trans; eauto).
    unfold Qlt, inject_Z in Hlt; cbn in Hlt. lia.
  - intros Hpos Hq. destruct (astype_int_nonneg q Hpos) as (H0 & Hlo & Hhi).
    assert (inject_Z (astype_int q) <= 36)%Q as Hle by (eapply Qle_trans; eauto).
    unfold Qle, inject_Z in Hle; cbn in Hle.
    rewrite Z.max_r by lia. rewrite Z.min_r by lia. split; assumption.
Qed.

(** X3. The corner at which a sprite is drawn follows the position of its
    digit, on each axis separately: it is 0 for a coordinate below 1
    (any negative one included), 36 for a coordinate of 36 or more, and
    for a coordinate q in [0, 36] it is the integer c with c <= q < c + 1. *)
Theorem placement_tracks_position imgs sl n (position : Q * Q) :
  let start := placement (loader_of imgs sl n) position in
  tracks (fst position) (fst start) /\ tracks (snd position) (snd start).
Proof.
  intros start. subst start. rewrite placement_eq.
  cbn [fst snd width height mnist_width mnist_height loader_of].
  change (64 - 28) with 36. split; apply clamp_tracks.
Qed.

End PlacementFacts.

(** ** Episodes from a fresh state *)

Section FreshEpisodeFacts.
Context {J : Jax} {JS : JaxSpec J}.

Lemma step_frame_conditions {Action} self (env : EnvState) (a : Action) :
  let env' := res_env (step self env a) in
  st_indexes (fst env') = st_indexes (fst env) /\
  snd env' = snd env /\
  (length (st_positions (fst env)) = length (st_velocs (fst env)) ->
   length (st_positions (fst env')) = length (st_velocs (fst env)) /\
   length (st_velocs (fst env')) = length (st_velocs (fst env))).
Proof.
  destruct env as [[[indexes positions] velocs] key].
  rewrite step_unfold. cbn [res_env st_indexes st_positions st_velocs fst snd].
  repeat split.
  - unfold arr_add. rewrite zip_with_length, bounced_length; lia.
  - apply bounced_length; assumption.
Qed.

Lemma getitem_in_range imgs i :
  0 <= i < Z.of_nat (length imgs) -> getitem imgs i = nth (Z.to_nat i) imgs [].
Proof.
  intros Hi. unfold getitem, clamp.
  destruct (Z.ltb_spec i 0); [lia|]. f_equal. lia.
Qed.

(** X4. Through a whole episode of at least one digit the digits stay the
    ones [_reset] drew: after any number of ticks from a fresh state the
    indices and the key are those of the fresh state, there are still
    exactly [num_mnist_per_mmnist] indices, positions and velocities, and
    every index is a valid index into the store, so the sprite looked up
    for rendering is the one stored at that index. *)
Theorem episode_keeps_digits {Action} imgs sl n (key : Key) (a : Action) m :
  imgs <> [] -> 0 < n ->
  let self := loader_of imgs sl n in
  let fresh := _reset self key in
  let env := steps self m fresh a in
  st_indexes (fst env) = st_indexes (fst fresh) /\
  snd env = snd fresh /\
  (length (st_indexes (fst env)) = Z.to_nat n /\
   length (st_positions (fst env)) = Z.to_nat n /\
   length (st_velocs (fst env)) = Z.to_nat n) /\
  Forall (fun i => 0 <= i < num_images self /\
                   getitem imgs i = nth (Z.to_nat i) imgs [])
         (st_indexes (fst env)).
Proof.
  intros Hne Hpos self fresh env.
  assert (Hn : 0 <= n) by lia.
  assert (Hnum : 0 < Z.of_nat (length imgs)).
  { destruct imgs; [congruence|]. cbn [length]. lia. }
  assert (Hi0 : length (st_indexes (fst fresh)) = Z.to_nat n).
  { cbn. apply randint_length, Hn. }
  assert (Hp0 : length (st_positions (fst fresh)) = Z.to_nat n).
  { cbn. apply uniform2_length, Hn. }
  assert (Hv0 : length (st_velocs (fst fresh)) = Z.to_nat n).
  { cbn. rewrite zip_with_length, !length_map.
    rewrite uniform_length, randint_length by exact Hn. lia. }
  assert (Hinv : st_indexes (fst env) = st_indexes (fst fresh) /\
                 snd env = snd fresh /\
                 length (st_positions (fst env)) = Z.to_nat n /\
                 length (st_velocs (fst env)) = Z.to_nat n).
  { subst env. induction m as [|m IH]; [auto|].
    rewrite steps_S. destruct IH as (I1 & I2 & I3 & I4).
    destruct (step_frame_conditions self (steps self m fresh a) a)
      as (S1 & S2 & S3).
    destruct S3 as [S3 S4]; [congruence|].
    repeat split; congruence. }
  destruct Hinv as (I1 & I2 & I3 & I4).
  split; [exact I1|]. split; [exact I2|]. split; [repeat split; congruence|].
  rewrite I1. cbn. apply Forall_forall. intros i Hi.
  assert (0 <= i < Z.of_nat (length imgs)) as Hr
      by (eapply randint_range; [exact Hnum|exact Hi]).
  split; [exact Hr|apply getitem_in_range, Hr].
Qed.

(** X5. In a fresh state no digit needs clamping: every position drawn by
    [_reset] has both coordinates in [0, 36), so the corner at which its
    sprite is drawn is the truncated position itself, between 0 and 35. *)
Theorem fresh_digits_are_unclamped imgs sl n (key : Key) :
  let self := loader_of imgs sl n in
  Forall (fun p =>
            placement self p = (astype_int (fst p), astype_int (snd p)) /\
            (0 <= astype_int (fst p) <= 35 /\ 0 <= astype_int (snd p) <= 35))
         (st_positions (fst (_reset self key))).
Proof.
  intros self. apply Forall_forall. intros p Hp.
  assert (Hin : In p (positions_ (reset_locals self key))) by exact Hp.
  cbn in Hin.
  destruct (uniform2_range _ _ 0%Q (inject_Z 36, inject_Z 36) p eq_refl eq_refl Hin)
    as [[Hx0 Hx1] [Hy0 Hy1]]. cbn [fst snd] in Hx0, Hx1, Hy0, Hy1.
  assert (Hb : forall q, (0 <= q)%Q -> (q < inject_Z 36)%Q -> 0 <= astype_int q <= 35).
  { intros q H0 H1. destruct (astype_int_nonneg q H0) as (Hnn & Hlo & _).
    assert (inject_Z (astype_int q) < inject_Z 36)%Q as Hlt
        by (eapply Qle_lt_trans; eauto).
    unfold Qlt, inject_Z in Hlt; cbn in Hlt. lia. }
  pose proof (Hb _ Hx0 Hx1) as Hx. pose proof (Hb _ Hy0 Hy1) as Hy.
  split; [|split; assumption].
  subst self. rewrite (placement_eq imgs sl n p).
  cbn [width height mnist_width mnist_height loader_of]. change (64 - 28) with 36.
  f_equal; lia.
Qed.

End FreshEpisodeFacts.

(** ** More on rendered frames *)

Section RenderFacts.

Lemma saturate_min v : saturate v = Z.min 255 v.
Proof. unfold saturate. rewrite Z.gtb_ltb. destruct (Z.ltb_spec 255 v); lia. Qed.

Lemma frame_pixel_eq imgs sl n state r c :
  store_ok imgs ->
  (qpixel (_get_obsv (loader_of imgs sl n) state) r c ==
   inject_Z (Z.min 255 (digit_sum (loader_of imgs sl n) state r c)) / 255)%Q.
Proof.
  intros Hstore. rewrite get_obsv_eq, qpixel_map by reflexivity.
  destruct (summed_canvas_spec imgs sl n Hstore state) as [_ Hp].
  rewrite Hp, saturate_min. reflexivity.
Qed.

Lemma scaled_le a b : a <= b -> (inject_Z a / 255 <= inject_Z b / 255)%Q.
Proof. intros H. unfold Qdiv, Qmult, Qinv, Qle, inject_Z; cbn. lia. Qed.

Lemma normalize_eq x : normalize x = (x # 255)%Q.
Proof. unfold normalize, Qdiv, Qmult, inject_Z; cbn. now rewrite Z.mul_1_r. Qed.

(** X6. A digit alone on the canvas is rendered without change: inside
    the 28x28 box at its corner a pixel is the sprite's intensity divided
    by 255, and every pixel outside the box is 0. *)
Theorem lone_digit_is_its_sprite imgs sl n index (position : Q * Q) velocs :
  store_ok imgs ->
  let self := loader_of imgs sl n in
  let start := placement self position in
  let frame := _get_obsv self ([index], [position], velocs) in
  forall r c,
    (qpixel frame r c ==
     if in_box self start r c
     then inject_Z (pixel (getitem imgs index) (r - fst start) (c - snd start)) / 255
     else 0)%Q.
Proof.
  intros Hstore self start frame r c. subst frame start self.
  rewrite (frame_pixel_eq imgs sl n _ r c Hstore).
  unfold digit_sum. cbn [st_indexes st_positions fst snd combine map fold_right].
  destruct (build_canvas_spec imgs sl n Hstore index position) as [_ Hp].
  rewrite Hp, Z.add_0_r.
  destruct (in_box _ _ r c); [|reflexivity].
  match goal with
  | |- context [pixel ?s ?a ?b] =>
      pose proof (pixel_sprite_range s a b (getitem_ok imgs index Hstore))
  end.
  rewrite Z.min_r by lia. reflexivity.
Qed.

(** X7. Drawing one more digit never darkens the frame: every pixel is at
    least what it was without that digit, and a pixel outside the new
    digit's box keeps its value. *)
Theorem extra_digit_only_adds imgs sl n index (position : Q * Q) velocity
        indexes positions velocs :
  store_ok imgs ->
  let self := loader_of imgs sl n in
  let old := _get_obsv self (indexes, positions, velocs) in
  let new := _get_obsv self (index :: indexes, position :: positions,
                             velocity :: velocs) in
  forall r c,
    (qpixel old r c <= qpixel new r c)%Q /\
    (in_box self (placement self position) r c = false ->
     (qpixel new r c == qpixel old r c)%Q).
Proof.
  intros Hstore self old new r c. subst old new self.
  rewrite !(frame_pixel_eq imgs sl n _ r c Hstore).
  set (self := loader_of imgs sl n).
  assert (Hsum : digit_sum self (index :: indexes, position :: positions,
                                 velocity :: velocs) r c
                 = pixel (_build_canvas self index position) r c
                   + digit_sum self (indexes, positions, velocs) r c)
    by reflexivity.
  rewrite Hsum.
  pose proof (build_canvas_nonneg imgs sl n Hstore index position r c) as Hnn.
  fold self in Hnn. split.
  - apply scaled_le. lia.
  - intros Hout.
    destruct (build_canvas_spec imgs sl n Hstore index position) as [_ Hp].
    fold self in Hp. rewrite Hp, Hout, Z.add_0_l. reflexivity.
Qed.

End RenderFacts.

(** ** More on sequences *)

Section MoreSequenceFacts.
Context {J : Jax}.

Lemma step_any_seq_len {Action} imgs sl sl' n (env : EnvState) (a : Action) :
  step (loader_of imgs sl n) env a = step (loader_of imgs sl' n) env a.
Proof. destruct env as [[[indexes positions] velocs] key]. reflexivity. Qed.

Lemma steps_any_seq_len {Action} imgs sl sl' n m (env : EnvState) (a : Action) :
  steps (loader_of imgs sl n) m env a = steps (loader_of imgs sl' n) m env a.
Proof.
  revert env. induction m as [|m IH]; intros env; [reflexivity|].
  cbn [steps]. rewrite (step_any_seq_len imgs sl sl'). apply IH.
Qed.

Lemma firstn_seq_le m m' s : (m <= m')%nat -> firstn m (seq s m') = seq s m.
Proof.
  revert m' s. induction m as [|m IH]; intros [|m'] s H; try reflexivity; try lia.
  cbn [seq firstn]. f_equal. apply IH. lia.
Qed.

(** X8. The frames of a sequence do not depend on its length: built from
    the same key over the same sprites, a shorter sequence is the
    beginning of a longer one. *)
Theorem build_seq_prefix imgs sl sl' n (key : Key) :
  0 <= sl <= sl' ->
  build_seq (loader_of imgs sl n) key =
  firstn (Z.to_nat sl) (build_seq (loader_of imgs sl' n) key).
Proof.
  intros Hle. rewrite !build_seq_eq. cbn [seq_len loader_of].
  rewrite firstn_map, firstn_seq_le by lia.
  apply map_ext. intros i.
  rewrite (steps_any_seq_len imgs sl sl'), (step_any_seq_len imgs sl sl').
  reflexivity.
Qed.

(** X9. Every frame of every sequence is a 64x64 image of 8-bit
    intensities over 255: each value is k / 255 for an integer k between
    0 and 255. *)
Theorem frames_are_quantised imgs sl n (key : Key) :
  store_ok imgs ->
  Forall (fun frame =>
            has_shape 64 64 frame /\
            Forall (Forall (fun v => exists k, 0 <= k <= 255 /\ v = (k # 255)%Q))
                   frame)
         (build_seq (loader_of imgs sl n) key).
Proof.
  intros Hstore. rewrite build_seq_eq. apply Forall_map, Forall_forall.
  intros i _. rewrite res_obsv_step.
  set (state := fst (res_env (step _ _ tt))).
  destruct (summed_canvas_spec imgs sl n Hstore state) as [Hs Hp].
  rewrite get_obsv_eq. split; [apply map_shape, Hs|].
  assert (Hnn : Forall (Forall (fun v => 0 <= v))
                       (summed_canvas (loader_of imgs sl n) state)).
  { apply entries_of_pixels. intros r c. rewrite Hp.
    apply digit_sum_nonneg, Hstore. }
  apply Forall_map. eapply Forall_impl; [|exact Hnn]. intros row Hrow.
  apply Forall_map. eapply Forall_impl; [|exact Hrow]. intros v Hv. cbv beta.
  exists (saturate v). split; [apply saturate_range, Hv|apply normalize_eq].
Qed.

End MoreSequenceFacts.

(** ** More on the batch stream *)

Section GeneratorFacts.
Context {J : Jax}.

Lemma mapM_map {A B} (f : A -> Result B) (g : B -> A) l :
  (forall b, f (g b) = inr b) -> mapM f (map g l) = inr l.
Proof.
  intros H. induction l as [|b l IH]; [reflexivity|].
  cbn [map mapM]. rewrite H. cbn [bind]. rewrite IH. reflexivity.
Qed.

Lemma mapM_inr {A B} (f : A -> Result B) (g : B -> A) l out :
  (forall a b, f a = inr b -> a = g b) -> mapM f l = inr out -> l = map g out.
Proof.
  intros H. revert out. induction l as [|a l IH]; intros out; cbn [mapM].
  - intros [= <-]. reflexivity.
  - destruct (f a) as [e|b] eqn:Ea; cbn [bind]; [discriminate|].
    destruct (mapM f l) as [e|bs] eqn:El; cbn [bind]; [discriminate|].
    intros [= <-]. cbn [map]. f_equal; [apply H, Ea|apply IH; reflexivity].
Qed.

Lemma rearrange_squeeze_with_channel imgs :
  rearrange_squeeze (with_channel imgs) = inr imgs.
Proof.
  unfold rearrange_squeeze, with_channel.
  apply mapM_map. intros im. apply mapM_map. intros row. apply mapM_map.
  reflexivity.
Qed.

Lemma rearrange_squeeze_inr a imgs :
  rearrange_squeeze a = inr imgs -> a = with_channel imgs.
Proof.
  unfold rearrange_squeeze, with_channel.
  apply (mapM_inr _ (map (map (fun v : Z => [v])))).
  intros im out. apply (mapM_inr _ (map (fun v : Z => [v]))).
  intros row out'. apply (mapM_inr _ (fun v : Z => [v])).
  intros [|v [|w px]] b; [discriminate| |discriminate]. intros [= <-]. reflexivity.
Qed.

Lemma slice_to_map {A B} (f : A -> B) l n :
  slice_to (map f l) n = map f (slice_to l n).
Proof.
  unfold slice_to. rewrite length_map. destruct (n <? 0); apply firstn_map.
Qed.

Lemma jaxMMNIST_built mnist train bs nsrc k sl g :
  jaxMMNIST mnist train bs nsrc k sl = inr g ->
  0 <= bs /\ 0 <= sl /\ batch_size g = bs /\
  seq_len (jaxLoader g) = sl /\ nums_per_image (jaxLoader g) = k /\
  next_key g = random_key 38.
Proof.
  unfold jaxMMNIST, jnp_zeros3, jnp_zeros2.
  destruct (rearrange_squeeze _) as [e|imgs]; cbn [bind __init__]; [discriminate|].
  destruct (Z.ltb_spec bs 0) as [Hb|Hb]; cbn [orb bind]; [discriminate|].
  destruct (Z.ltb_spec sl 0) as [Hs|Hs]; cbn [orb bind]; [discriminate|].
  destruct (Z.to_nat bs) as [|nb]; cbn [repeat at0_set bind]; [discriminate|].
  intros [= <-]. cbn. repeat split; assumption.
Qed.

(** X10. No batch comes out of a generator asked for a negative batch
    size or a negative sequence length: the call fails before the loop,
    either on the dataset or on the shape of the tag arrays.  Conversely a
    generator that was built has a batch size and a sequence length that
    are not negative, and starts from the key of seed 38. *)
Theorem generator_needs_valid_sizes mnist train bs nsrc k sl :
  (bs < 0 \/ sl < 0 -> exists e, jaxMMNIST mnist train bs nsrc k sl = inl e) /\
  (forall g, jaxMMNIST mnist train bs nsrc k sl = inr g ->
             0 <= bs /\ 0 <= sl /\ batch_size g = bs /\
             seq_len (jaxLoader g) = sl /\ nums_per_image (jaxLoader g) = k /\
             next_key g = random_key 38).
Proof.
  split; [|intros g; apply jaxMMNIST_built].
  intros Hneg. unfold jaxMMNIST, jnp_zeros3, jnp_zeros2.
  destruct (rearrange_squeeze _) as [e|imgs]; cbn [bind __init__].
  - exists e; reflexivity.
  - destruct (Z.ltb_spec bs 0) as [Hb|Hb]; cbn [orb bind].
    + exists TypeError; reflexivity.
    + destruct (Z.ltb_spec sl 0) as [Hs|Hs]; cbn [orb bind]; [|lia].
      exists TypeError; reflexivity.
Qed.

(** X11. Over a dataset whose images carry a channel axis of length 1
    and with a sequence length that is not negative: for batch size 0 the
    set-up fails on [is_first.at[0]], index 0 being out of bounds; for a
    positive batch size it succeeds, and the loader holds exactly the
    images of the chosen split up to [num_source_mnist_images], in order
    and with the channel axis removed; when that number is not negative
    the loader has min(number, size of the split) sprites. *)
Theorem generator_holds_dataset_prefix mnist (train : bool) bs nsrc k sl imgs :
  (if train then train_image mnist else test_image mnist) = with_channel imgs ->
  0 <= sl ->
  jaxMMNIST mnist train 0 nsrc k sl = inl IndexError /\
  (0 < bs ->
   exists g,
     jaxMMNIST mnist train bs nsrc k sl = inr g /\
     images (jaxLoader g) = slice_to imgs nsrc /\
     num_images (jaxLoader g) = Z.of_nat (length (slice_to imgs nsrc)) /\
     (0 <= nsrc ->
      images (jaxLoader g) = firstn (Z.to_nat nsrc) imgs /\
      num_images (jaxLoader g) = Z.min nsrc (Z.of_nat (length imgs)))).
Proof.
  intros Hsplit Hsl.
  assert (Hsq : rearrange_squeeze
                  (slice_to (if train then train_image mnist else test_image mnist)
                            nsrc) = inr (slice_to imgs nsrc)).
  { rewrite Hsplit. unfold with_channel at 1. rewrite slice_to_map.
    apply rearrange_squeeze_with_channel. }
  split.
  - unfold jaxMMNIST, jnp_zeros3, jnp_zeros2. rewrite Hsq. cbn [bind __init__].
    destruct (Z.ltb_spec sl 0); [lia|]. reflexivity.
  - intros Hbs. unfold jaxMMNIST, jnp_zeros3, jnp_zeros2.
    rewrite Hsq. cbn [bind __init__].
    destruct (Z.ltb_spec bs 0); [lia|]. destruct (Z.ltb_spec sl 0); [lia|].
    cbn [orb bind].
    destruct (Z.to_nat bs) as [|nb] eqn:Hnb; [lia|]. cbn [repeat at0_set bind].
    eexists. split; [reflexivity|].
    cbn [jaxLoader images num_images loader_of]. repeat split.
    + unfold slice_to. destruct (Z.ltb_spec nsrc 0); [lia|reflexivity].
    + unfold slice_to. destruct (Z.ltb_spec nsrc 0); [lia|].
      rewrite length_firstn. lia.
Qed.

Lemma nth_batch_key_chain g m :
  nth_batch g m =
  fst (next {| jaxLoader := jaxLoader g; batch_size := batch_size g;
               action_ := action_ g; is_first_ := is_first_ g;
               next_key := key_chain (next_key g) m |}).
Proof.
  revert g. induction m as [|m IH]; intros g.
  - destruct g; reflexivity.
  - cbn [nth_batch key_chain]. rewrite IH. reflexivity.
Qed.

(** X12. The keys of the batches form one chain rooted at seed 38: the
    generator keeps the first child of every split, and batch [m] is built
    from the [batch_size] keys split off the second child of the split
    number [m + 1], one sequence per key and in that order. *)
Theorem batch_keys_follow_the_chain mnist train bs nsrc k sl g m :
  jaxMMNIST mnist train bs nsrc k sl = inr g ->
  let parent := key_chain (random_key 38) m in
  let current_key := snd (random_split parent) in
  image (nth_batch g m) =
  rearrange_expand (map (build_seq (jaxLoader g)) (random_split_num current_key bs)).
Proof.
  intros Hg parent current_key.
  destruct (jaxMMNIST_built _ _ _ _ _ _ _ Hg) as (_ & _ & Hb & _ & _ & Hkey).
  rewrite nth_batch_key_chain. cbn [next fst image next_key batch_size jaxLoader].
  rewrite Hkey, Hb. reflexivity.
Qed.

End GeneratorFacts.

(** ** Whole episodes stay on the canvas *)

Section BandFacts.
Context {J : Jax} {JS : JaxSpec J}.

Lemma scaled_speed_slow (speed : Z) (u : Q) :
  2 <= speed < 7 -> (-1 <= u /\ u <= 1)%Q ->
  (-20 <= inject_Z speed * u /\ inject_Z speed * u <= 20)%Q.
Proof.
  intros Hs [Hu0 Hu1].
  assert (H2 : (2 <= inject_Z speed)%Q) by (unfold Qle, inject_Z; cbn; lia).
  assert (H7 : (inject_Z speed <= 7)%Q) by (unfold Qle, inject_Z; cbn; lia).
  generalize dependent (inject_Z speed). intros s H2 H7. split; nra.
Qed.

(** X13. When cosine and sine take values in [-1, 1], no digit of an
    episode ever runs away: in the fresh state and after any number of
    ticks every position lies in the band from -2 to 38 on both axes, at
    most 2 pixels beyond the range in which a sprite can be drawn. *)
Theorem episode_stays_in_band {Action} imgs sl n (key : Key) (a : Action) m :
  (forall x, (-1 <= jnp_cos x /\ jnp_cos x <= 1)%Q) ->
  (forall x, (-1 <= jnp_sin x /\ jnp_sin x <= 1)%Q) ->
  let self := loader_of imgs sl n in
  Forall in_band (st_positions (fst (steps self m (_reset self key) a))).
Proof.
  intros Hcos Hsin self. apply steps_in_band.
  - cbn. apply Forall_forall. intros p Hp.
    destruct (uniform2_range _ _ 0%Q (inject_Z 36, inject_Z 36) p eq_refl eq_refl Hp)
      as [[Hx0 Hx1] [Hy0 Hy1]]. cbn [fst snd] in Hx0, Hx1, Hy0, Hy1.
    change (inject_Z 36) with 36%Q in Hx1, Hy1.
    unfold in_band. repeat split; lra.
  - change (st_velocs (fst (_reset self key)))
      with (zip_with (fun direc speed =>
                        (inject_Z speed * jnp_cos direc,
                         inject_Z speed * jnp_sin direc)%Q)
                     (direcs (reset_locals self key))
                     (speeds (reset_locals self key))).
    apply Forall_nth_error. intros i v Hv. rewrite nth_error_zip_with in Hv.
    destruct (nth_error (direcs _) i) as [direc|]; [|discriminate].
    destruct (nth_error (speeds _) i) as [speed|] eqn:Hs; [|discriminate].
    injection Hv as <-.
    assert (Hr : 2 <= speed < 7).
    { apply nth_error_In in Hs. cbn in Hs. apply in_map_iff in Hs.
      destruct Hs as (s & <- & Hin).
      assert (0 <= s < 5) by (eapply randint_range; [lia|exact Hin]). lia. }
    split; cbn [fst snd]; apply scaled_speed_slow; auto.
Qed.

End BandFacts.

(** ** Frames depend on the corners only *)

Section CornerFacts.

Lemma build_canvas_by_corner self index p p' :
  placement self p = placement self p' ->
  _build_canvas self index p = _build_canvas self index p'.
Proof. intros H. rewrite !build_canvas_eq, H. reflexivity. Qed.

Lemma fold_canvas_by_corner self indexes positions positions' init :
  map (placement self) positions = map (placement self) positions' ->
  fold_left (fun canvas ip => image_add canvas (_build_canvas self (fst ip) (snd ip)))
            (combine indexes positions) init =
  fold_left (fun canvas ip => image_add canvas (_build_canvas self (fst ip) (snd ip)))
            (combine indexes positions') init.
Proof.
  revert indexes positions' init.
  induction positions as [|p ps IH]; intros indexes [|p' ps'] init H;
    try discriminate.
  - reflexivity.
  - destruct indexes as [|i indexes]; [reflexivity|].
    pose proof (f_equal (@hd _ (0, 0)) H) as Hp.
    pose proof (f_equal (@tl _) H) as Hps.
    cbn [map hd tl] in Hp, Hps. cbn [combine fold_left fst snd].
    rewrite (build_canvas_by_corner self i p p' Hp). apply IH, Hps.
Qed.

(** X14. A frame depends on the positions of the digits only through the
    corners at which their sprites are drawn, and not at all on the
    velocities: two states with the same indices whose positions give the
    same corners render the same frame. *)
Theorem frame_depends_on_corners self indexes positions positions' velocs velocs' :
  map (placement self) positions = map (placement self) positions' ->
  _get_obsv self (indexes, positions, velocs)
  = _get_obsv self (indexes, positions', velocs').
Proof.
  intros H. unfold _get_obsv, summed_canvas.
  rewrite (fold_canvas_by_corner self indexes positions positions' _ H).
  reflexivity.
Qed.

End CornerFacts.

(** ** The unit-circle instance *)

Lemma Qsquare_nonneg (q : Q) : (0 <= q * q)%Q.
Proof. unfold Qle, Qmult; cbn. nia. Qed.

Lemma circle_bound a t :
  (- (1 + t * t) <= a)%Q -> (a <= 1 + t * t)%Q ->
  (-1 <= a / (1 + t * t) /\ a / (1 + t * t) <= 1)%Q.
Proof.
  intros Hlo Hhi.
  assert (Hd : (0 < 1 + t * t)%Q) by (pose proof (Qsquare_nonneg t); lra).
  split.
  - apply Qle_shift_div_l; [exact Hd|]. lra.
  - apply Qle_shift_div_r; [exact Hd|]. lra.
Qed.

Lemma circle_cos_bound x : (-1 <= circle_cos x /\ circle_cos x <= 1)%Q.
Proof.
  unfold circle_cos. generalize (x / 2)%Q. intros t.
  pose proof (Qsquare_nonneg t). apply circle_bound; lra.
Qed.

Lemma circle_sin_bound x : (-1 <= circle_sin x /\ circle_sin x <= 1)%Q.
Proof.
  unfold circle_sin. generalize (x / 2)%Q. intros t.
  pose proof (Qsquare_nonneg (1 - t)). pose proof (Qsquare_nonneg (1 + t)).
  apply circle_bound; lra.
Qed.

Lemma CircleJax_spec : JaxSpec CircleJax.
Proof.
  constructor.
  - exact (@split_num_length _ CycleJax_spec).
  - exact (@uniform_length _ CycleJax_spec).
  - exact (@uniform_range _ CycleJax_spec).
  - exact (@uniform2_length _ CycleJax_spec).
  - exact (@uniform2_range _ CycleJax_spec).
  - exact (@randint_length _ CycleJax_spec).
  - exact (@randint_range _ CycleJax_spec).
Defined.

(** ** More concrete runs *)

Lemma digits_stay_in_band_witness :
  let self := loader_of two_sprites 3 1 in
  let env : @EnvState CycleJax := (([0], [(37, 10)%Q], [(3, -2)%Q]), 5) in
  Forall in_band (st_positions (fst (steps self 5 env tt))).
Proof.
  intros self env.
  assert (Hband : Forall in_band (st_positions (fst env))).
  { apply Forall_cons; [|apply Forall_nil]. unfold in_band, Qle; cbn. lia. }
  assert (Hslow : Forall slow (st_velocs (fst env))).
  { apply Forall_cons; [|apply Forall_nil]. unfold slow, Qle; cbn. lia. }
  exact (proj1 (digits_stay_in_band two_sprites 3 1 env tt 5 Hband Hslow)).
Defined.

Lemma episode_keeps_digits_witness :
  let self := loader_of two_sprites 3 2 in
  length (st_positions (fst (steps self 3 (_reset self (3 : @Key CycleJax)) tt)))
  = 2%nat.
Proof.
  intros self.
  assert (Hne : two_sprites <> []) by discriminate.
  assert (Hn : 0 < 2) by lia.
  exact (proj1 (proj2 (proj1 (proj2 (proj2
           (episode_keeps_digits (J := CycleJax) two_sprites 3 2 3 tt 3 Hne Hn)))))).
Defined.

Lemma fresh_digits_are_unclamped_witness :
  let self := loader_of two_sprites 3 2 in
  Forall (fun p =>
            placement self p = (astype_int (fst p), astype_int (snd p)) /\
            (0 <= astype_int (fst p) <= 35 /\ 0 <= astype_int (snd p) <= 35))
         (st_positions (fst (_reset self (3 : @Key CycleJax)))).
Proof.
  exact (fresh_digits_are_unclamped (J := CycleJax) (JS := CycleJax_spec)
                                    two_sprites 3 2 3).
Defined.

(** The digit at (3.5, 4.5) covers pixel (10, 10) with intensity 200. *)
Lemma lone_digit_is_its_sprite_witness :
  let state : DigitState := ([0], [(7 # 2, 9 # 2)%Q], []) in
  (qpixel (_get_obsv (loader_of two_sprites 3 1) state) 10 10 == 200 # 255)%Q.
Proof.
  intros state.
  eapply Qeq_trans;
    [apply (lone_digit_is_its_sprite two_sprites 3 1 0 (7 # 2, 9 # 2)%Q []
                                     two_sprites_ok 10 10)|].
  vm_compute. reflexivity.
Defined.

Lemma extra_digit_only_adds_witness :
  let old : DigitState := ([0], [(3, 3)%Q], [(0, 0)%Q]) in
  let new : DigitState := ([1; 0], [(5, 5)%Q; (3, 3)%Q], [(0, 0)%Q; (0, 0)%Q]) in
  (qpixel (_get_obsv (loader_of two_sprites 3 2) old) 10 10
   <= qpixel (_get_obsv (loader_of two_sprites 3 2) new) 10 10)%Q.
Proof.
  exact (proj1 (extra_digit_only_adds two_sprites 3 2 1 (5, 5)%Q (0, 0)%Q
                                      [0] [(3, 3)%Q] [(0, 0)%Q]
                                      two_sprites_ok 10 10)).
Defined.

Lemma build_seq_prefix_witness :
  build_seq (loader_of two_sprites 2 1) (5 : @Key CycleJax) =
  firstn 2 (build_seq (loader_of two_sprites 3 1) (5 : @Key CycleJax)).
Proof.
  apply (build_seq_prefix (J := CycleJax) two_sprites 2 3 1 5). lia.
Defined.

Lemma frames_are_quantised_witness :
  Forall (fun frame =>
            has_shape 64 64 frame /\
            Forall (Forall (fun v => exists k, 0 <= k <= 255 /\ v = (k # 255)%Q))
                   frame)
         (build_seq (loader_of two_sprites 3 1) (5 : @Key CycleJax)).
Proof.
  exact (frames_are_quantised (J := CycleJax) two_sprites 3 1 5 two_sprites_ok).
Defined.

Lemma generator_needs_valid_sizes_witness :
  exists e, jaxMMNIST (J := CycleJax) two_sprite_mnist true (-1) 2 1 3 = inl e.
Proof.
  apply (proj1 (generator_needs_valid_sizes (J := CycleJax)
                  two_sprite_mnist true (-1) 2 1 3)).
  left. lia.
Defined.

Lemma generator_holds_dataset_prefix_witness :
  exists g,
    jaxMMNIST (J := CycleJax) two_sprite_mnist true 2 1 1 3 = inr g /\
    images (jaxLoader g) = [flat_sprite 200].
Proof.
  assert (Hsplit : train_image two_sprite_mnist = with_channel two_sprites)
    by reflexivity.
  assert (Hbs : 0 < 2) by lia.
  assert (Hsl : 0 <= 3) by lia.
  destruct (proj2 (generator_holds_dataset_prefix (J := CycleJax) two_sprite_mnist
                     true 2 1 1 3 two_sprites Hsplit Hsl) Hbs)
    as (g & Hg & Himg & _).
  exists g. split; [exact Hg|]. rewrite Himg. reflexivity.
Defined.

Lemma batch_keys_follow_the_chain_witness :
  image (nth_batch small_generator 2) =
  rearrange_expand
    (map (build_seq (jaxLoader small_generator))
         (random_split_num
            (snd (random_split (key_chain (@random_key CycleJax 38) 2))) 2)).
Proof.
  exact (batch_keys_follow_the_chain two_sprite_mnist true 2 2 1 3
                                     small_generator 2 small_generator_built).
Defined.

Lemma episode_stays_in_band_witness :
  let self := loader_of two_sprites 3 2 in
  Forall in_band
         (st_positions (fst (steps self 4 (_reset self (3 : @Key CircleJax)) tt))).
Proof.
  exact (episode_stays_in_band (J := CircleJax) (JS := CircleJax_spec)
                               two_sprites 3 2 3 tt 4
                               circle_cos_bound circle_sin_bound).
Defined.

(** Two positions inside the same pixel, with different velocities. *)
Lemma frame_depends_on_corners_witness :
  _get_obsv (loader_of two_sprites 3 1) ([0], [(16 # 5, 47 # 10)%Q], [(1, 1)%Q])
  = _get_obsv (loader_of two_sprites 3 1) ([0], [(39 # 10, 41 # 10)%Q], [(-1, 0)%Q]).
Proof.
  apply frame_depends_on_corners. reflexivity.
Defined.
